(** * Catch the Block: the game loop of [project_templete/main.cpp]

    A shallow embedding of the frame loop of [main]: the event pump, the
    keyboard sampling, the paddle clamp, the falling block, the collision
    and miss checks, and the MENU / PLAYING / GAME_OVER state machine.

    C [int] values are integers of [Z] kept in the 32-bit signed range; the
    additions and subtractions of the program wrap around explicitly. *)

From Stdlib Require Import String.
From Stdlib Require Import ZArith List Bool Lia.
Import ListNotations.
Local Open Scope Z_scope.

(** ** Machine integers *)

Module Int.

Definition INT_MIN : Z := - 2 ^ 31.
Definition INT_MAX : Z := 2 ^ 31 - 1.

(** Two's complement wrap-around of a 32-bit [int]. *)
Definition wrap (z : Z) : Z := (z + 2 ^ 31) mod 2 ^ 32 - 2 ^ 31.

Definition in_range (z : Z) : Prop := INT_MIN <= z <= INT_MAX.

Definition add (a b : Z) : Z := wrap (a + b).
Definition sub (a b : Z) : Z := wrap (a - b).
(** C division and remainder truncate towards zero. *)
Definition div (a b : Z) : Z := wrap (Z.quot a b).
Definition rem (a b : Z) : Z := Z.rem a b.

End Int.

(** ** Configuration constants (main.cpp, lines 34-41) *)

Definition SCREEN_WIDTH : Z := 800.
Definition SCREEN_HEIGHT : Z := 600.
Definition PADDLE_WIDTH : Z := 100.
Definition PADDLE_HEIGHT : Z := 20.
Definition BLOCK_SIZE : Z := 30.
Definition PADDLE_SPEED : Z := 10.
Definition BLOCK_SPEED : Z := 5.
Definition MAX_MISTAKES : Z := 5.

(** ** Game state enum (main.cpp, lines 45-50) *)

Inductive GameState : Type := MENU | PLAYING | GAME_OVER.

Definition GameState_eqb (a b : GameState) : bool :=
  match a, b with
  | MENU, MENU | PLAYING, PLAYING | GAME_OVER, GAME_OVER => true
  | _, _ => false
  end.

(** ** Geometry of the SDL collaborator *)

Record SDL_Rect : Type := mkRect { rx : Z; ry : Z; rw : Z; rh : Z }.
Record SDL_Point : Type := mkPoint { px : Z; py : Z }.

Definition set_rx (r : SDL_Rect) (v : Z) : SDL_Rect := mkRect v (ry r) (rw r) (rh r).
Definition set_ry (r : SDL_Rect) (v : Z) : SDL_Rect := mkRect (rx r) v (rw r) (rh r).

(** Modelled from the spec: [SDL_RectEmpty] is an inline helper of SDL2's
    [SDL_rect.h], which is not under src/.  A rectangle without positive
    width and height has no area. *)
Definition SDL_RectEmpty (r : SDL_Rect) : bool :=
  (rw r <=? 0) || (rh r <=? 0).

(** Modelled from the spec: [SDL_PointInRect] is an inline helper of SDL2's
    [SDL_rect.h], which is not under src/; main.cpp only calls it (line 236).
    The point lies inside the rectangle: at or after its left and top edge,
    strictly before its right and bottom edge. *)
Definition SDL_PointInRect (p : SDL_Point) (r : SDL_Rect) : bool :=
  (px p >=? rx r) && (px p <? Int.add (rx r) (rw r)) &&
  (py p >=? ry r) && (py p <? Int.add (ry r) (rh r)).

(** One axis of the overlap test: clip the span of [A] by the span of [B]
    and report whether anything is left. *)
Definition span_overlap (a aw b bw : Z) : bool :=
  let Amin := a in
  let Amax := Int.add Amin aw in
  let Bmin := b in
  let Bmax := Int.add Bmin bw in
  let Amin := if Bmin >? Amin then Bmin else Amin in
  let Amax := if Bmax <? Amax then Bmax else Amax in
  negb (Amax <=? Amin).

(** Modelled from the spec: the body of [SDL_HasIntersection] belongs to the
    SDL2 library ([SDL_rect.c]) and is not under src/; main.cpp only calls it
    (line 285).  It is the standard axis-aligned overlap test of the spec's
    section 8, computed the way the library does: empty rectangles never
    intersect, then the horizontal and the vertical spans are clipped against
    each other and both must keep a positive length. *)
Definition SDL_HasIntersection (A B : SDL_Rect) : bool :=
  if SDL_RectEmpty A || SDL_RectEmpty B then false
  else if negb (span_overlap (rx A) (rw A) (rx B) (rw B)) then false
  else if negb (span_overlap (ry A) (rh A) (ry B) (rh B)) then false
  else true.

(** The overlap formula as the specification writes it, over unbounded
    integers, for comparison with [SDL_HasIntersection]. *)
Definition overlap_spec (R1 R2 : SDL_Rect) : Prop :=
  rx R1 < rx R2 + rw R2 /\ rx R2 < rx R1 + rw R1 /\
  ry R1 < ry R2 + rh R2 /\ ry R2 < ry R1 + rh R1.

(** A rectangle with positive size whose far edges are representable. *)
Definition rect_ok (r : SDL_Rect) : Prop :=
  0 < rw r /\ 0 < rh r /\
  Int.in_range (rx r + rw r) /\ Int.in_range (ry r + rh r).

(** ** Events and per-frame input *)

Definition SDLK_ESCAPE : Z := 27.

(** The members of the [SDL_Event] union that the loop looks at: the event
    type, the key symbol of a key press and the x coordinate of a motion. *)
Inductive SDL_Event : Type :=
| QuitEvent
| KeyDownEvent (sym : Z)
| MouseButtonDownEvent
| MouseMotionEvent (motion_x : Z)
| OtherEvent.

(** What one pass of the [while (isRunning)] body reads from its environment:
    the events the poll loop returns until the queue is empty, each paired with
    the pointer position [SDL_GetMouseState] reports while it is handled, and
    the arrow keys of [SDL_GetKeyboardState]. *)
Record FrameInput : Type := mkInput {
  events : list (SDL_Event * SDL_Point);
  keyLeft : bool;
  keyRight : bool
}.

(** Lines written to standard output. *)
Inductive Line : Type :=
| CaughtIt
| Missed (mistakes : Z)
| GameOverLine.

Definition Line_is_caught (l : Line) : bool :=
  match l with CaughtIt => true | _ => false end.

(** ** The variables of [main] that the loop reads and writes *)

Record Game : Type := mkGame {
  currentState : GameState;
  mistakes : Z;
  player : SDL_Rect;
  block : SDL_Rect;
  isRunning : bool;
  musicPlaying : bool;
  randCalls : nat;
  stdout : list Line
}.

Definition set_currentState (g : Game) (s : GameState) : Game :=
  mkGame s (mistakes g) (player g) (block g) (isRunning g) (musicPlaying g)
         (randCalls g) (stdout g).
Definition set_mistakes (g : Game) (m : Z) : Game :=
  mkGame (currentState g) m (player g) (block g) (isRunning g) (musicPlaying g)
         (randCalls g) (stdout g).
Definition set_player (g : Game) (r : SDL_Rect) : Game :=
  mkGame (currentState g) (mistakes g) r (block g) (isRunning g) (musicPlaying g)
         (randCalls g) (stdout g).
Definition set_block (g : Game) (r : SDL_Rect) : Game :=
  mkGame (currentState g) (mistakes g) (player g) r (isRunning g) (musicPlaying g)
         (randCalls g) (stdout g).
Definition set_isRunning (g : Game) (b : bool) : Game :=
  mkGame (currentState g) (mistakes g) (player g) (block g) b (musicPlaying g)
         (randCalls g) (stdout g).
Definition set_musicPlaying (g : Game) (b : bool) : Game :=
  mkGame (currentState g) (mistakes g) (player g) (block g) (isRunning g) b
         (randCalls g) (stdout g).
Definition print (g : Game) (l : Line) : Game :=
  mkGame (currentState g) (mistakes g) (player g) (block g) (isRunning g)
         (musicPlaying g) (randCalls g) (stdout g ++ [l]).

(** The play button (main.cpp, lines 172-176). *)
Definition playButtonRect : SDL_Rect :=
  let w := 250 in
  let h := 100 in
  mkRect (Int.div (Int.sub SCREEN_WIDTH w) 2) (Int.div (Int.sub SCREEN_HEIGHT h) 2) w h.

(** ** Startup, rendering and shutdown: the calls [main] makes

    The calls of [main] and [loadTexture] that set up, draw and tear down
    are recorded in the order they are made.  A call that can fail carries
    the result the library gave.  A texture is identified by the path of the
    image it was made from.  The calls of the loop that read input
    ([SDL_PollEvent], [SDL_GetMouseState], [SDL_GetKeyboardState], [rand])
    are the [FrameInput] and the random sequence; its [Mix_PlayMusic] and
    [Mix_HaltMusic] and its output lines are the [musicPlaying] and [stdout]
    fields of [Game]. *)

(** What the libraries answer to the calls that can fail. *)
Record Env : Type := mkEnv {
  SDL_Init_ret : Z;
  IMG_Init_ret : Z;
  Mix_OpenAudio_ret : Z;
  SDL_CreateWindow_ok : bool;
  SDL_CreateRenderer_ok : bool;
  IMG_Load_ok : string -> bool;
  SDL_CreateTextureFromSurface_ok : string -> bool;
  Mix_LoadMUS_ok : bool
}.

(** The messages written to standard error, without the library's own
    error text. *)
Inductive ErrorMsg : Type :=
| CouldNotInitializeSDL
| SDLImageCouldNotInitialize
| SDLMixerCouldNotInitialize
| WindowCouldNotBeCreated
| RendererCouldNotBeCreated
| UnableToLoadImage (path : string)
| UnableToCreateTexture (path : string)
| FailedToLoadTextures
| FailedToLoadMusic.

Inductive Call : Type :=
| SDL_Init (ret : Z)
| IMG_Init (ret : Z)
| Mix_OpenAudio (ret : Z)
| SDL_CreateWindow (ok : bool)
| SDL_CreateRenderer (ok : bool)
| srand
| IMG_Load (path : string) (ok : bool)
| SDL_CreateTextureFromSurface (path : string) (ok : bool)
| SDL_FreeSurface (path : string)
| Mix_LoadMUS (ok : bool)
| Mix_FreeMusic
| SDL_DestroyTexture (path : string)
| SDL_DestroyRenderer
| SDL_DestroyWindow
| Mix_Quit
| IMG_Quit
| SDL_Quit
| cerr (msg : ErrorMsg)
| SDL_SetRenderDrawColor (r g b a : Z)
| SDL_RenderClear
| SDL_RenderCopy (texture : string) (dstrect : option SDL_Rect)
| SDL_RenderFillRect (rect : SDL_Rect)
| SDL_RenderPresent
| SDL_Delay (ms : Z).

Definition IMG_INIT_PNG : Z := 2.

Definition play_button_png : string := "play_button.png".
Definition game_over_png : string := "game_over.png".

(** [loadTexture] (main.cpp, lines 69-87): the texture, if any, and the
    calls made.  The surface is freed whenever it was loaded. *)
Definition loadTexture (env : Env) (path : string) : option string * list Call :=
  let loadedSurface := IMG_Load_ok env path in
  if negb loadedSurface
  then (None, [IMG_Load path false; cerr (UnableToLoadImage path)])
  else
    let created := SDL_CreateTextureFromSurface_ok env path in
    (if created then Some path else None,
     [IMG_Load path true; SDL_CreateTextureFromSurface path created] ++
     (if created then [] else [cerr (UnableToCreateTexture path)]) ++
     [SDL_FreeSurface path]).

(** Rendering (main.cpp, lines 310-332). *)
Definition render (g : Game) : list Call :=
  [SDL_SetRenderDrawColor 33 33 33 255; SDL_RenderClear] ++
  match currentState g with
  | MENU => [SDL_RenderCopy play_button_png (Some playButtonRect)]
  | PLAYING =>
      [SDL_SetRenderDrawColor 100 180 255 255; SDL_RenderFillRect (player g);
       SDL_SetRenderDrawColor 255 220 50 255; SDL_RenderFillRect (block g)]
  | GAME_OVER => [SDL_RenderCopy game_over_png None]
  end ++
  [SDL_RenderPresent; SDL_Delay 16].

(** Cleanup (main.cpp, lines 336-351). *)
Definition cleanup : list Call :=
  [Mix_FreeMusic; SDL_DestroyTexture play_button_png;
   SDL_DestroyTexture game_over_png; SDL_DestroyRenderer; SDL_DestroyWindow;
   Mix_Quit; IMG_Quit; SDL_Quit].

(** Initialization and asset setup (main.cpp, lines 94-191): the calls made,
    and whether [main] goes on to the loop; otherwise it returns 1. *)
Definition startup (env : Env) : list Call * bool :=
  let t := [SDL_Init (SDL_Init_ret env)] in
  if SDL_Init_ret env <? 0
  then (t ++ [cerr CouldNotInitializeSDL], false)
  else
  let imgFlags := IMG_INIT_PNG in
  let t := t ++ [IMG_Init (IMG_Init_ret env)] in
  if Z.land (IMG_Init_ret env) imgFlags =? 0
  then (t ++ [cerr SDLImageCouldNotInitialize; SDL_Quit], false)
  else
  let t := t ++ [Mix_OpenAudio (Mix_OpenAudio_ret env)] in
  if Mix_OpenAudio_ret env <? 0
  then (t ++ [cerr SDLMixerCouldNotInitialize; IMG_Quit; SDL_Quit], false)
  else
  let t := t ++ [SDL_CreateWindow (SDL_CreateWindow_ok env)] in
  if negb (SDL_CreateWindow_ok env)
  then (t ++ [cerr WindowCouldNotBeCreated; Mix_Quit; IMG_Quit; SDL_Quit], false)
  else
  let t := t ++ [SDL_CreateRenderer (SDL_CreateRenderer_ok env)] in
  if negb (SDL_CreateRenderer_ok env)
  then (t ++ [cerr RendererCouldNotBeCreated; SDL_DestroyWindow; Mix_Quit;
              IMG_Quit; SDL_Quit], false)
  else
  let t := t ++ [srand] in
  let (playButtonTexture, t1) := loadTexture env play_button_png in
  let (gameOverTexture, t2) := loadTexture env game_over_png in
  let t := t ++ t1 ++ t2 in
  match playButtonTexture, gameOverTexture with
  | Some playButton, Some gameOver =>
      let t := t ++ [Mix_LoadMUS (Mix_LoadMUS_ok env)] in
      if negb (Mix_LoadMUS_ok env)
      then (t ++ [cerr FailedToLoadMusic; SDL_DestroyTexture playButton;
                  SDL_DestroyTexture gameOver; SDL_DestroyRenderer;
                  SDL_DestroyWindow; Mix_Quit; IMG_Quit; SDL_Quit], false)
      else (t, true)
  | _, _ =>
      (t ++ [cerr FailedToLoadTextures; SDL_DestroyRenderer; SDL_DestroyWindow;
             Mix_Quit; IMG_Quit; SDL_Quit], false)
  end.

(** *** Resources held along a sequence of calls *)

Inductive Resource : Type :=
| SDL_library
| IMG_library
| Mixer
| Window
| Renderer
| Surface (path : string)
| Texture (path : string)
| Music.

Definition Resource_eqb (a b : Resource) : bool :=
  match a, b with
  | SDL_library, SDL_library | IMG_library, IMG_library | Mixer, Mixer
  | Window, Window | Renderer, Renderer | Music, Music => true
  | Surface p, Surface q | Texture p, Texture q => String.eqb p q
  | _, _ => false
  end.

(** The resource a call hands out, when it succeeds by the test [main] or
    [loadTexture] applies to its result. *)
Definition acquired (c : Call) : option Resource :=
  match c with
  | SDL_Init ret => if ret <? 0 then None else Some SDL_library
  | IMG_Init ret => if Z.land ret IMG_INIT_PNG =? 0 then None else Some IMG_library
  | Mix_OpenAudio ret => if ret <? 0 then None else Some Mixer
  | SDL_CreateWindow true => Some Window
  | SDL_CreateRenderer true => Some Renderer
  | IMG_Load path true => Some (Surface path)
  | SDL_CreateTextureFromSurface path true => Some (Texture path)
  | Mix_LoadMUS true => Some Music
  | _ => None
  end.

(** The resource a call gives back. *)
Definition released (c : Call) : option Resource :=
  match c with
  | SDL_Quit => Some SDL_library
  | IMG_Quit => Some IMG_library
  | Mix_Quit => Some Mixer
  | SDL_DestroyWindow => Some Window
  | SDL_DestroyRenderer => Some Renderer
  | SDL_FreeSurface path => Some (Surface path)
  | SDL_DestroyTexture path => Some (Texture path)
  | Mix_FreeMusic => Some Music
  | _ => None
  end.

Fixpoint remove_held (r : Resource) (held : list Resource) : list Resource :=
  match held with
  | [] => []
  | h :: rest => if Resource_eqb r h then rest else h :: remove_held r rest
  end.

(** Follow the calls from a set of held resources; [None] when a call gives
    back a resource that is not held. *)
Fixpoint track (held : list Resource) (calls : list Call) : option (list Resource) :=
  match calls with
  | [] => Some held
  | c :: rest =>
      match released c with
      | Some r =>
          if existsb (Resource_eqb r) held
          then track (remove_held r held) rest
          else None
      | None =>
          match acquired c with
          | Some r => track (r :: held) rest
          | None => track held rest
          end
      end
  end.

Definition is_cerr (c : Call) : bool :=
  match c with cerr _ => true | _ => false end.

Definition is_present (c : Call) : bool :=
  match c with SDL_RenderPresent => true | _ => false end.

Definition is_texture (r : Resource) : bool :=
  match r with Texture _ => true | _ => false end.

(** Every startup step succeeds. *)
Definition startup_succeeds (env : Env) : bool :=
  (0 <=? SDL_Init_ret env) && Z.testbit (IMG_Init_ret env) 1 &&
  (0 <=? Mix_OpenAudio_ret env) &&
  SDL_CreateWindow_ok env && SDL_CreateRenderer_ok env &&
  (IMG_Load_ok env play_button_png &&
   SDL_CreateTextureFromSurface_ok env play_button_png) &&
  (IMG_Load_ok env game_over_png &&
   SDL_CreateTextureFromSurface_ok env game_over_png) &&
  Mix_LoadMUS_ok env.

(** Libraries that never fail, and libraries that cannot find
    [game_over.png]. *)
Definition sample_env : Env :=
  mkEnv 0 2 0 true true (fun _ => true) (fun _ => true) true.


(** ** Sample inputs

    Concrete frames on which the theorems below are exercised. *)

(** A random source that always answers 380. *)
Definition sample_rand : nat -> Z := fun _ => 380.

(** No event, no key. *)
Definition idle : FrameInput := mkInput [] false false.

(** A click on the play button. *)
Definition click_play : FrameInput :=
  mkInput [(MouseButtonDownEvent, mkPoint 400 300)] false false.

(** A click on the play button, then the pointer moved to the left border. *)
Definition click_play_go_left : FrameInput :=
  mkInput [(MouseButtonDownEvent, mkPoint 400 300);
           (MouseMotionEvent 0, mkPoint 0 300)] false false.

(** A click on the play button, the pointer far to the right, and the right
    arrow held. *)
Definition click_play_go_right : FrameInput :=
  mkInput [(MouseButtonDownEvent, mkPoint 400 300);
           (MouseMotionEvent 5000, mkPoint 5000 300)] false true.

(** The window is closed. *)
Definition close_window : FrameInput :=
  mkInput [(QuitEvent, mkPoint 0 0)] false false.

Section GameLoop.

(** The values successive calls of [rand()] return.  The C library
      returns a value between 0 and [RAND_MAX]. *)
Variable rand_seq : nat -> Z.
Hypothesis rand_nonneg : forall n, 0 <= rand_seq n.

(** [rand()]: the next value of the sequence. *)
Definition rand (g : Game) : Z * Game :=
    (rand_seq (randCalls g),
     mkGame (currentState g) (mistakes g) (player g) (block g) (isRunning g)
            (musicPlaying g) (S (randCalls g)) (stdout g)).

(** [block.rect.y = 0; block.rect.x = rand() % (SCREEN_WIDTH - BLOCK_SIZE);] *)
Definition respawn_block (g : Game) : Game :=
    let g := set_block g (set_ry (block g) 0) in
    let (r, g) := rand g in
    set_block g (set_rx (block g) (Int.rem r (Int.sub SCREEN_WIDTH BLOCK_SIZE))).

(** Variable setup before the loop (main.cpp, lines 153-209). *)
Definition init : Game :=
    let player := mkRect (Int.div (Int.sub SCREEN_WIDTH PADDLE_WIDTH) 2)
                         (Int.sub (Int.sub SCREEN_HEIGHT PADDLE_HEIGHT) 10)
                         PADDLE_WIDTH PADDLE_HEIGHT in
    let g := mkGame MENU 0 player (mkRect 0 0 BLOCK_SIZE BLOCK_SIZE) true false 0 [] in
    let (r, g) := rand g in
    let g := set_block g (set_rx (block g) (Int.rem r (Int.sub SCREEN_WIDTH BLOCK_SIZE))) in
    set_block g (set_ry (block g) 0).

(** The body of the [SDL_PollEvent] loop (main.cpp, lines 217-251). *)
Definition handle_event (g : Game) (ev : SDL_Event * SDL_Point) : Game :=
    let (event, mouse) := ev in
    match event with
    | QuitEvent => set_isRunning g false
    | KeyDownEvent sym =>
        if sym =? SDLK_ESCAPE then set_isRunning g false else g
    | MouseButtonDownEvent =>
        match currentState g with
        | MENU =>
            let mousePoint := mkPoint (px mouse) (py mouse) in
            if SDL_PointInRect mousePoint playButtonRect
            then set_musicPlaying (set_currentState g PLAYING) true
            else g
        | _ => g
        end
    | MouseMotionEvent motion_x =>
        match currentState g with
        | PLAYING =>
            set_player g (set_rx (player g)
                            (Int.sub motion_x (Int.div (rw (player g)) 2)))
        | _ => g
        end
    | OtherEvent => g
    end.

Definition poll_events (g : Game) (evs : list (SDL_Event * SDL_Point)) : Game :=
    fold_left handle_event evs g.

(** Keyboard sampling (main.cpp, lines 255-266). *)
Definition keyboard_input (g : Game) (left right : bool) : Game :=
    match currentState g with
    | PLAYING =>
        let g := if left
                 then set_player g (set_rx (player g) (Int.sub (rx (player g)) PADDLE_SPEED))
                 else g in
        if right
        then set_player g (set_rx (player g) (Int.add (rx (player g)) PADDLE_SPEED))
        else g
    | _ => g
    end.

(** Keep paddle within screen bounds (main.cpp, lines 272-279). *)
Definition clamp_paddle (g : Game) : Game :=
    let g := if rx (player g) <? 0
             then set_player g (set_rx (player g) 0) else g in
    if rx (player g) >? Int.sub SCREEN_WIDTH (rw (player g))
    then set_player g (set_rx (player g) (Int.sub SCREEN_WIDTH (rw (player g))))
    else g.

(** Move the block down (main.cpp, line 282). *)
Definition move_block (g : Game) : Game :=
    set_block g (set_ry (block g) (Int.add (ry (block g)) BLOCK_SPEED)).

(** Collision between paddle and block (main.cpp, lines 285-290). *)
Definition collision_check (g : Game) : Game :=
    if SDL_HasIntersection (player g) (block g)
    then respawn_block (print g CaughtIt)
    else g.

(** Block missed the paddle and hit the bottom (main.cpp, lines 293-306). *)
Definition miss_check (g : Game) : Game :=
    if ry (block g) >? SCREEN_HEIGHT
    then
      let g := set_mistakes g (Int.add (mistakes g) 1) in
      let g := print g (Missed (mistakes g)) in
      let g := respawn_block g in
      if mistakes g >=? MAX_MISTAKES
      then set_musicPlaying (set_currentState (print g GameOverLine) GAME_OVER) false
      else g
    else g.

(** Game logic, only in the PLAYING state (main.cpp, lines 269-307). *)
Definition game_logic (g : Game) : Game :=
    match currentState g with
    | PLAYING => miss_check (collision_check (move_block (clamp_paddle g)))
    | _ => g
    end.

(** The state in which the game logic of a frame starts: all events
      handled and the keyboard applied. *)
Definition after_input (g : Game) (i : FrameInput) : Game :=
    keyboard_input (poll_events g (events i)) (keyLeft i) (keyRight i).

(** One pass of the [while (isRunning)] body. *)
Definition frame (g : Game) (i : FrameInput) : Game :=
    game_logic (after_input g i).

(** The loop: one [FrameInput] per pass, until [isRunning] is false. *)
Fixpoint run (g : Game) (inputs : list FrameInput) : Game :=
    match inputs with
    | [] => g
    | i :: rest => if isRunning g then run (frame g i) rest else g
    end.

(** Number of passes the loop makes over the given inputs. *)
Fixpoint iterations (g : Game) (inputs : list FrameInput) : nat :=
    match inputs with
    | [] => O
    | i :: rest => if isRunning g then S (iterations (frame g i) rest) else O
    end.

(** States at the head of the loop. *)
Inductive reachable : Game -> Prop :=
  | reach_init : reachable init
  | reach_frame (g : Game) (i : FrameInput) :
      reachable g -> isRunning g = true -> reachable (frame g i).

(** The state on which the collision test of a frame runs: paddle clamped
    and block moved down. *)
Definition at_collision_test (g : Game) (i : FrameInput) : Game :=
  move_block (clamp_paddle (after_input g i)).

(** The pairs of rectangles handed to [SDL_HasIntersection] in some frame of
    some run of the game. *)
Definition collision_operands (R1 R2 : SDL_Rect) : Prop :=
  exists g i, reachable g /\ currentState (after_input g i) = PLAYING /\
              R1 = player (at_collision_test g i) /\
              R2 = block (at_collision_test g i).

(** The condition of the collision [if] of a frame, and of the miss [if]
    that follows it; both false when the game logic is skipped. *)
Definition catch_occurs (g : Game) (i : FrameInput) : bool :=
  GameState_eqb (currentState (after_input g i)) PLAYING &&
  SDL_HasIntersection (player (at_collision_test g i)) (block (at_collision_test g i)).

Definition miss_occurs (g : Game) (i : FrameInput) : bool :=
  GameState_eqb (currentState (after_input g i)) PLAYING &&
  (ry (block (collision_check (at_collision_test g i))) >? SCREEN_HEIGHT).

(** ** Invariants of the loop *)

Definition fixed_sizes (g : Game) : Prop :=
  rw (player g) = PADDLE_WIDTH /\ rh (player g) = PADDLE_HEIGHT /\
  ry (player g) = 570 /\
  rw (block g) = BLOCK_SIZE /\ rh (block g) = BLOCK_SIZE.

Definition block_ok (g : Game) : Prop :=
  0 <= rx (block g) < SCREEN_WIDTH - BLOCK_SIZE /\
  0 <= ry (block g) <= SCREEN_HEIGHT /\
  ry (block g) mod BLOCK_SPEED = 0.

Definition state_mistakes_ok (g : Game) : Prop :=
  match currentState g with
  | MENU => mistakes g = 0
  | PLAYING => 0 <= mistakes g < MAX_MISTAKES
  | GAME_OVER => mistakes g = MAX_MISTAKES
  end.

(** Holds after the input phase, where the paddle may be anywhere. *)
Definition input_inv (g : Game) : Prop :=
  fixed_sizes g /\ block_ok g /\ state_mistakes_ok g.

(** Holds at the head of the loop. *)
Definition loop_inv (g : Game) : Prop :=
  input_inv g /\ 0 <= rx (player g) <= SCREEN_WIDTH - PADDLE_WIDTH.


(** ** The whole program *)

(** The calls of the loop: one rendering per pass. *)
Fixpoint loop_calls (g : Game) (inputs : list FrameInput) : list Call :=
  match inputs with
  | [] => []
  | i :: rest =>
      if isRunning g then render (frame g i) ++ loop_calls (frame g i) rest else []
  end.

(** [main]: its return value and the calls it makes, on the frames given.
    The return value is [None] when the frames run out with the window still
    open. *)
Definition main (env : Env) (inputs : list FrameInput) : option Z * list Call :=
  let (t, ok) := startup env in
  if ok
  then
    let t := t ++ loop_calls init inputs in
    if isRunning (run init inputs) then (None, t) else (Some 0, t ++ cleanup)
  else (Some 1, t).

(** The frames the blocks have cost so far: 121 per miss, and one per step
    the current block has fallen. *)
Definition frames_spent (g : Game) : Z :=
  121 * mistakes g + ry (block g) / BLOCK_SPEED.

(** The screen rectangle contains the rectangle. *)
Definition on_screen (r : SDL_Rect) : Prop :=
  0 <= rx r /\ rx r + rw r <= SCREEN_WIDTH /\
  0 <= ry r /\ ry r + rh r <= SCREEN_HEIGHT.

(** The paddle's x for a pointer at [mx]: centred, then clamped. *)
Definition follow_pointer (mx : Z) : Z :=
  Z.max 0 (Z.min (SCREEN_WIDTH - PADDLE_WIDTH) (mx - PADDLE_WIDTH / 2)).

(** The events that end the loop: window close and Escape key-down. *)
Definition is_quit (ev : SDL_Event * SDL_Point) : bool :=
  match fst ev with
  | QuitEvent => true
  | KeyDownEvent sym => sym =? SDLK_ESCAPE
  | _ => false
  end.

Definition frame_quits (i : FrameInput) : bool := existsb is_quit (events i).

(** The frame's input with the window-close and Escape events taken out. *)
Definition without_quits (i : FrameInput) : FrameInput :=
  mkInput (filter (fun ev => negb (is_quit ev)) (events i)) (keyLeft i) (keyRight i).

Definition is_motion (ev : SDL_Event * SDL_Point) : bool :=
  match fst ev with MouseMotionEvent _ => true | _ => false end.

(** Order of the states in a game. *)
Definition state_rank (s : GameState) : nat :=
  match s with MENU => 0 | PLAYING => 1 | GAME_OVER => 2 end.

Definition Line_is_game_over (l : Line) : bool :=
  match l with GameOverLine => true | _ => false end.

(** A pointer-down while the pointer is reported inside the play button. *)
Definition is_play_click (ev : SDL_Event * SDL_Point) : bool :=
  match fst ev with
  | MouseButtonDownEvent => SDL_PointInRect (snd ev) playButtonRect
  | _ => false
  end.

(** The numbers of the [Missed] lines, in the order printed. *)
Definition missed_numbers (out : list Line) : list Z :=
  flat_map (fun l => match l with Missed n => [n] | _ => [] end) out.

(** What the loop keeps true about the music and the bookkeeping of its
    output and of its calls of [rand()]. *)
Definition books_inv (g : Game) : Prop :=
  musicPlaying g = GameState_eqb (currentState g) PLAYING /\
  Z.of_nat (randCalls g) =
    1 + Z.of_nat (length (filter Line_is_caught (stdout g))) + mistakes g /\
  missed_numbers (stdout g) = map Z.of_nat (seq 1 (Z.to_nat (mistakes g))) /\
  existsb Line_is_game_over (stdout g) = GameState_eqb (currentState g) GAME_OVER.

(** What the input phase of a frame (events, then keyboard) may change:
    the paddle's x while PLAYING, MENU to PLAYING with the music, and
    [isRunning] from true to false. *)
Definition input_rel (g g' : Game) : Prop :=
  mistakes g' = mistakes g /\ block g' = block g /\
  randCalls g' = randCalls g /\ stdout g' = stdout g /\
  rw (player g') = rw (player g) /\ rh (player g') = rh (player g) /\
  ry (player g') = ry (player g) /\
  (currentState g' = currentState g \/
   (currentState g = MENU /\ currentState g' = PLAYING)) /\
  (currentState g' <> PLAYING ->
   currentState g' = currentState g /\ player g' = player g /\
   musicPlaying g' = musicPlaying g) /\
  (isRunning g = false -> isRunning g' = false).

(** ** Machine integer facts *)

Lemma wrap_small (z : Z) : Int.in_range z -> Int.wrap z = z.
Proof.
  unfold Int.in_range, Int.INT_MIN, Int.INT_MAX, Int.wrap. intros H.
  rewrite Z.mod_small; lia.
Qed.

Lemma wrap_in_range (z : Z) : Int.in_range (Int.wrap z).
Proof.
  unfold Int.in_range, Int.INT_MIN, Int.INT_MAX, Int.wrap.
  pose proof (Z.mod_pos_bound (z + 2 ^ 31) (2 ^ 32)). lia.
Qed.

(** ** The overlap test *)

Lemma span_overlap_sym (a aw b bw : Z) :
  span_overlap a aw b bw = span_overlap b bw a aw.
Proof.
  unfold span_overlap.
  generalize (Int.add a aw) (Int.add b bw). intros ea eb.
  destruct (Z.gtb_spec b a), (Z.gtb_spec a b),
           (Z.ltb_spec eb ea), (Z.ltb_spec ea eb); try lia;
    repeat match goal with
           | |- context [?x <=? ?y] => destruct (Z.leb_spec x y)
           end; try reflexivity; lia.
Qed.

Lemma span_overlap_true (a aw b bw : Z) :
  Int.in_range (a + aw) -> Int.in_range (b + bw) -> 0 < aw -> 0 < bw ->
  span_overlap a aw b bw = true <-> a < b + bw /\ b < a + aw.
Proof.
  intros Ha Hb Haw Hbw. unfold span_overlap, Int.add.
  rewrite (wrap_small _ Ha), (wrap_small _ Hb).
  destruct (Z.gtb_spec b a), (Z.ltb_spec (b + bw) (a + aw));
    match goal with
    | |- context [?x <=? ?y] => destruct (Z.leb_spec x y)
    end; simpl; split; intros; try discriminate; try reflexivity; lia.
Qed.

Lemma SDL_HasIntersection_sym (A B : SDL_Rect) :
  SDL_HasIntersection A B = SDL_HasIntersection B A.
Proof.
  unfold SDL_HasIntersection.
  rewrite (orb_comm (SDL_RectEmpty A)).
  rewrite (span_overlap_sym (rx A)), (span_overlap_sym (ry A)).
  reflexivity.
Qed.

Lemma SDL_HasIntersection_overlap (R1 R2 : SDL_Rect) :
  rect_ok R1 -> rect_ok R2 ->
  SDL_HasIntersection R1 R2 = true <-> overlap_spec R1 R2.
Proof.
  intros (Hw1 & Hh1 & Hx1 & Hy1) (Hw2 & Hh2 & Hx2 & Hy2).
  pose proof (span_overlap_true (rx R1) (rw R1) (rx R2) (rw R2) Hx1 Hx2 Hw1 Hw2) as HX.
  pose proof (span_overlap_true (ry R1) (rh R1) (ry R2) (rh R2) Hy1 Hy2 Hh1 Hh2) as HY.
  unfold SDL_HasIntersection, SDL_RectEmpty, overlap_spec.
  destruct (Z.leb_spec (rw R1) 0); [lia|].
  destruct (Z.leb_spec (rh R1) 0); [lia|].
  destruct (Z.leb_spec (rw R2) 0); [lia|].
  destruct (Z.leb_spec (rh R2) 0); [lia|]. simpl.
  destruct (span_overlap (rx R1) (rw R1) (rx R2) (rw R2)),
           (span_overlap (ry R1) (rh R1) (ry R2) (rh R2)); simpl;
    intuition (try discriminate; try reflexivity).
Qed.

(** ** The input phase *)

Lemma input_rel_refl (g : Game) : input_rel g g.
Proof. unfold input_rel; intuition. Qed.

Lemma input_rel_trans (g1 g2 g3 : Game) :
  input_rel g1 g2 -> input_rel g2 g3 -> input_rel g1 g3.
Proof.
  unfold input_rel.
  intros (Hm & Hb & Hr & Ho & Hw & Hh & Hy & Hs & Hn & Hq)
         (Hm' & Hb' & Hr' & Ho' & Hw' & Hh' & Hy' & Hs' & Hn' & Hq').
  repeat split; try congruence.
  - destruct Hs as [Hs | [Hs1 Hs2]], Hs' as [Hs' | [Hs1' Hs2']];
      first [ left; congruence | right; split; congruence ].
  - destruct (Hn' H) as (E & _ & _).
    assert (currentState g2 <> PLAYING) as H2 by congruence.
    destruct (Hn H2) as (E2 & _ & _). congruence.
  - destruct (Hn' H) as (E & P & _).
    assert (currentState g2 <> PLAYING) as H2 by congruence.
    destruct (Hn H2) as (_ & P2 & _). congruence.
  - destruct (Hn' H) as (E & _ & M).
    assert (currentState g2 <> PLAYING) as H2 by congruence.
    destruct (Hn H2) as (_ & _ & M2). congruence.
  - auto.
Qed.

Lemma handle_event_rel (g : Game) (ev : SDL_Event * SDL_Point) :
  input_rel g (handle_event g ev).
Proof.
  destruct ev as [e mouse]. unfold handle_event.
  destruct e as [ | sym | | mx | ].
  - unfold input_rel; simpl; intuition.
  - destruct (sym =? SDLK_ESCAPE); unfold input_rel; simpl; intuition.
  - destruct (currentState g) eqn:Hs; try apply input_rel_refl.
    destruct (SDL_PointInRect _ _); try apply input_rel_refl.
    unfold input_rel; simpl; rewrite Hs; intuition congruence.
  - destruct (currentState g) eqn:Hs; try apply input_rel_refl.
    unfold input_rel; simpl; rewrite Hs; intuition congruence.
  - apply input_rel_refl.
Qed.

Lemma poll_events_rel (evs : list (SDL_Event * SDL_Point)) (g : Game) :
  input_rel g (poll_events g evs).
Proof.
  unfold poll_events. revert g.
  induction evs as [ | ev evs IH]; intros g; simpl.
  - apply input_rel_refl.
  - eapply input_rel_trans; [apply handle_event_rel | apply IH].
Qed.

Lemma keyboard_input_rel (g : Game) (l r : bool) :
  input_rel g (keyboard_input g l r).
Proof.
  unfold keyboard_input.
  destruct (currentState g) eqn:Hs; try apply input_rel_refl.
  destruct l, r; unfold input_rel; simpl; rewrite ?Hs; intuition congruence.
Qed.

Lemma after_input_rel (g : Game) (i : FrameInput) :
  input_rel g (after_input g i).
Proof.
  unfold after_input.
  eapply input_rel_trans; [apply poll_events_rel | apply keyboard_input_rel].
Qed.

Lemma after_input_inv (g : Game) (i : FrameInput) :
  loop_inv g -> input_inv (after_input g i).
Proof.
  intros [(Hf & Hb & Hs) Hx].
  destruct (after_input_rel g i)
    as (Hm & Hbk & _ & _ & Hw & Hh & Hy & Hst & _ & _).
  unfold input_inv, fixed_sizes, block_ok, state_mistakes_ok in *.
  rewrite Hm, Hbk, Hw, Hh, Hy.
  repeat split; try tauto.
  destruct Hst as [E | [E1 E2]].
  - rewrite E. exact Hs.
  - rewrite E1 in Hs. rewrite E2. unfold MAX_MISTAKES. lia.
Qed.

(** ** The game logic *)

Ltac unfold_consts :=
  cbv [SCREEN_WIDTH SCREEN_HEIGHT PADDLE_WIDTH PADDLE_HEIGHT BLOCK_SIZE
       PADDLE_SPEED BLOCK_SPEED MAX_MISTAKES] in *.

Ltac proj_simpl :=
  cbn [currentState mistakes player block isRunning musicPlaying randCalls
       stdout rx ry rw rh set_rx set_ry] in *.

Ltac int_range := unfold Int.in_range, Int.INT_MIN, Int.INT_MAX; lia.

(** Rewrite the wrapped operations whose exact result is representable. *)
Ltac norm_int :=
  unfold Int.add, Int.sub, Int.rem in *;
  repeat match goal with
         | |- context [Int.wrap ?z] => rewrite (wrap_small z) by int_range
         | H : context [Int.wrap ?z] |- _ => rewrite (wrap_small z) in H by int_range
         end.

Lemma rand_rem_bound (n : nat) :
  0 <= Z.rem (rand_seq n) 770 < 770.
Proof. apply Z.rem_bound_pos; [apply rand_nonneg | lia]. Qed.

Lemma clamp_paddle_x (g : Game) :
  rw (player g) = PADDLE_WIDTH ->
  0 <= rx (player (clamp_paddle g)) <= SCREEN_WIDTH - PADDLE_WIDTH.
Proof.
  intros Hw. unfold clamp_paddle.
  destruct (Z.ltb_spec (rx (player g)) 0); simpl; rewrite Hw;
    unfold_consts; norm_int; simpl.
  - lia.
  - destruct (Z.gtb_spec (rx (player g)) 700); simpl; lia.
Qed.

Lemma clamp_paddle_only_x (g : Game) :
  clamp_paddle g = set_player g (set_rx (player g) (rx (player (clamp_paddle g)))).
Proof.
  destruct g as [st m [x y w h] b run mu rc out]. unfold clamp_paddle. simpl.
  destruct (x <? 0); simpl;
    match goal with |- context [?a >? ?b] => destruct (a >? b) end; reflexivity.
Qed.

Lemma respawn_block_eq (g : Game) :
  respawn_block g =
  mkGame (currentState g) (mistakes g) (player g)
         (mkRect (Z.rem (rand_seq (randCalls g)) 770) 0 (rw (block g)) (rh (block g)))
         (isRunning g) (musicPlaying g) (S (randCalls g)) (stdout g).
Proof. unfold respawn_block, rand. simpl. unfold_consts. norm_int. reflexivity. Qed.

Lemma miss_check_idle (g : Game) :
  ry (block g) <= SCREEN_HEIGHT -> miss_check g = g.
Proof.
  intros H. unfold miss_check.
  destruct (Z.gtb_spec (ry (block g)) SCREEN_HEIGHT); [lia | reflexivity].
Qed.

Lemma miss_check_fires (g : Game) :
  ry (block g) > SCREEN_HEIGHT ->
  let m := Int.add (mistakes g) 1 in
  let over := m >=? MAX_MISTAKES in
  miss_check g =
  mkGame (if over then GAME_OVER else currentState g) m (player g)
         (mkRect (Z.rem (rand_seq (randCalls g)) 770) 0 (rw (block g)) (rh (block g)))
         (isRunning g) (if over then false else musicPlaying g)
         (S (randCalls g))
         (if over then (stdout g ++ [Missed m]) ++ [GameOverLine]
          else stdout g ++ [Missed m]).
Proof.
  intros H m over. unfold miss_check.
  destruct (Z.gtb_spec (ry (block g)) SCREEN_HEIGHT); [ | lia].
  rewrite respawn_block_eq. simpl. fold m. fold over.
  destruct over; reflexivity.
Qed.

Lemma collision_check_catch (g : Game) :
  SDL_HasIntersection (player g) (block g) = true ->
  collision_check g =
  mkGame (currentState g) (mistakes g) (player g)
         (mkRect (Z.rem (rand_seq (randCalls g)) 770) 0 (rw (block g)) (rh (block g)))
         (isRunning g) (musicPlaying g) (S (randCalls g)) (stdout g ++ [CaughtIt]).
Proof.
  intros H. unfold collision_check. rewrite H, respawn_block_eq. reflexivity.
Qed.

Lemma collision_check_idle (g : Game) :
  SDL_HasIntersection (player g) (block g) = false -> collision_check g = g.
Proof. intros H. unfold collision_check. rewrite H. reflexivity. Qed.

(** The four ways a frame can go. *)
Lemma frame_cases (g : Game) (i : FrameInput) :
  let a := after_input g i in
  let t := at_collision_test g i in
  (currentState a <> PLAYING /\ frame g i = a) \/
  (currentState a = PLAYING /\
   SDL_HasIntersection (player t) (block t) = true /\
   frame g i = collision_check t) \/
  (currentState a = PLAYING /\
   SDL_HasIntersection (player t) (block t) = false /\
   ry (block t) <= SCREEN_HEIGHT /\ frame g i = t) \/
  (currentState a = PLAYING /\
   SDL_HasIntersection (player t) (block t) = false /\
   ry (block t) > SCREEN_HEIGHT /\ frame g i = miss_check t).
Proof.
  intros a t. unfold frame, game_logic. fold a.
  destruct (currentState a) eqn:Hs;
    try (left; split; [discriminate | reflexivity]).
  right. change (move_block (clamp_paddle a)) with t.
  destruct (SDL_HasIntersection (player t) (block t)) eqn:Hc.
  - left. repeat split. apply miss_check_idle.
    rewrite (collision_check_catch _ Hc). simpl. unfold_consts. lia.
  - right. rewrite (collision_check_idle _ Hc).
    destruct (Z.le_gt_cases (ry (block t)) SCREEN_HEIGHT) as [Hy | Hy].
    + left. repeat split; [exact Hy | apply miss_check_idle, Hy].
    + right. repeat split. lia.
Qed.

(** Fields of the state at the collision test, in terms of the state after
    the input phase. *)
Lemma at_collision_test_fields (g : Game) (i : FrameInput) :
  let a := after_input g i in
  let t := at_collision_test g i in
  currentState t = currentState a /\ mistakes t = mistakes a /\
  isRunning t = isRunning a /\ musicPlaying t = musicPlaying a /\
  randCalls t = randCalls a /\ stdout t = stdout a /\
  rx (player t) = rx (player (clamp_paddle a)) /\
  ry (player t) = ry (player a) /\ rw (player t) = rw (player a) /\
  rh (player t) = rh (player a) /\
  block t = set_ry (block a) (Int.add (ry (block a)) BLOCK_SPEED).
Proof.
  intros a t. unfold t, at_collision_test. fold a.
  rewrite (clamp_paddle_only_x a). simpl. repeat split; reflexivity.
Qed.

(** ** The loop invariant *)

Lemma init_eq :
  init = mkGame MENU 0 (mkRect 350 570 100 20)
                (mkRect (Z.rem (rand_seq 0) 770) 0 30 30) true false 1 [].
Proof. reflexivity. Qed.

Lemma init_inv : loop_inv init.
Proof.
  pose proof (rand_rem_bound 0) as Hr. rewrite init_eq.
  unfold loop_inv, input_inv, fixed_sizes, block_ok, state_mistakes_ok.
  simpl. unfold_consts.
  repeat split; try reflexivity; lia.
Qed.

Lemma frame_inv (g : Game) (i : FrameInput) :
  loop_inv g -> loop_inv (frame g i).
Proof.
  intros Hg. pose proof (after_input_inv g i Hg) as Ha.
  destruct Hg as [_ Hx].
  destruct (after_input_rel g i) as (_ & _ & _ & _ & _ & _ & _ & _ & Hn & _).
  destruct (at_collision_test_fields g i)
    as (Ts & Tm & _ & _ & Trc & _ & Tx & Ty & Tw & Th & Tb).
  destruct Ha as ((Fw & Fh & Fy & Bw & Bh) & (Bx & By & Bm) & Hs).
  pose proof (clamp_paddle_x _ Fw) as Hc.
  pose proof (rand_rem_bound (randCalls (at_collision_test g i))) as Hr.
  assert (ry (block (at_collision_test g i)) = ry (block (after_input g i)) + 5) as Hty.
  { rewrite Tb. simpl. unfold_consts. norm_int. reflexivity. }
  destruct (frame_cases g i) as [(Hs' & E) | [(Hs' & Hc' & E) | [(Hs' & Hc' & Hy & E) |
                                 (Hs' & Hc' & Hy & E)]]]; rewrite E; clear E.
  - destruct (Hn Hs') as (_ & Hp & _).
    split; [unfold input_inv, fixed_sizes, block_ok; tauto | rewrite Hp; exact Hx].
  - rewrite (collision_check_catch _ Hc').
    unfold loop_inv, input_inv, fixed_sizes, block_ok, state_mistakes_ok.
    proj_simpl. rewrite Ts, Tm, Ty, Tw, Th, Tx, Tb. proj_simpl.
    unfold_consts. repeat split; try assumption; try lia.
  - unfold loop_inv, input_inv, fixed_sizes, block_ok, state_mistakes_ok.
    rewrite Ts, Tm, Ty, Tw, Th, Tx. rewrite Hty in *. rewrite Tb. proj_simpl.
    unfold_consts. norm_int.
    repeat split; try assumption; try lia.
    rewrite <- Z.add_mod_idemp_l, Bm by lia. reflexivity.
  - rewrite (miss_check_fires _ Hy).
    unfold state_mistakes_ok in Hs. rewrite Hs' in Hs.
    unfold loop_inv, input_inv, fixed_sizes, block_ok, state_mistakes_ok.
    proj_simpl. rewrite Ts, Tm, Ty, Tw, Th, Tx, Tb, Hs'. proj_simpl.
    unfold_consts. norm_int.
    destruct (Z.geb_spec (mistakes (after_input g i) + 1) 5);
      repeat split; try assumption; try lia.
Qed.

Lemma reachable_inv (g : Game) : reachable g -> loop_inv g.
Proof.
  induction 1 as [ | g i _ IH _]; [apply init_inv | apply frame_inv, IH].
Qed.

Lemma reachable_run (inputs : list FrameInput) (g : Game) :
  reachable g -> reachable (run g inputs).
Proof.
  revert g. induction inputs as [ | i rest IH]; intros g Hg; simpl; [exact Hg | ].
  destruct (isRunning g) eqn:Hr; [ | exact Hg].
  apply IH, reach_frame; assumption.
Qed.

(** The rectangles at the collision test of a PLAYING frame. *)
Lemma at_collision_test_shape (g : Game) (i : FrameInput) :
  reachable g ->
  let t := at_collision_test g i in
  rw (player t) = 100 /\ rh (player t) = 20 /\ ry (player t) = 570 /\
  0 <= rx (player t) <= 700 /\
  rw (block t) = 30 /\ rh (block t) = 30 /\
  rx (block t) = rx (block g) /\ 0 <= rx (block t) < 770 /\
  ry (block t) = ry (block g) + 5 /\ 5 <= ry (block t) <= 605 /\
  ry (block t) mod 5 = 0.
Proof.
  intros Hg t. apply reachable_inv in Hg.
  pose proof (after_input_inv g i Hg) as Ha.
  destruct (after_input_rel g i) as (_ & Hbk & _).
  destruct (at_collision_test_fields g i)
    as (_ & _ & _ & _ & _ & _ & Tx & Ty & Tw & Th & Tb).
  destruct Ha as ((Fw & Fh & Fy & Bw & Bh) & (Bx & By & Bm) & _).
  pose proof (clamp_paddle_x _ Fw) as Hc.
  fold t in Tx, Ty, Tw, Th, Tb.
  rewrite Tx, Ty, Tw, Th, Tb. rewrite Hbk in *. proj_simpl.
  unfold_consts. norm_int.
  repeat split; try assumption; try lia.
  rewrite <- Z.add_mod_idemp_l, Bm by lia. reflexivity.
Qed.

Lemma collision_operands_ok (R1 R2 : SDL_Rect) :
  collision_operands R1 R2 -> rect_ok R1 /\ rect_ok R2.
Proof.
  intros (g & i & Hg & _ & E1 & E2).
  destruct (at_collision_test_shape g i Hg)
    as (Pw & Ph & Py & Px & Bw & Bh & _ & Bx & _ & By & _).
  subst R1 R2. unfold rect_ok. rewrite Pw, Ph, Py, Bw, Bh.
  repeat split; try lia; int_range.
Qed.

(** C1. The collision test between the paddle and the block rectangle is the
    standard axis-aligned overlap formula and is symmetric: for every pair of
    rectangles R1 = (x1,y1,w1,h1), R2 = (x2,y2,w2,h2) handed to the test in a
    frame of the game, [SDL_HasIntersection R1 R2] holds exactly when
    x1 < x2+w2, x2 < x1+w1, y1 < y2+h2 and y2 < y1+h1, and the test gives the
    same answer with its arguments swapped. *)
Theorem collision_test_is_symmetric_overlap (R1 R2 : SDL_Rect) :
  collision_operands R1 R2 ->
  (SDL_HasIntersection R1 R2 = true <->
   rx R1 < rx R2 + rw R2 /\ rx R2 < rx R1 + rw R1 /\
   ry R1 < ry R2 + rh R2 /\ ry R2 < ry R1 + rh R1) /\
  SDL_HasIntersection R1 R2 = SDL_HasIntersection R2 R1.
Proof.
  intros H. destruct (collision_operands_ok R1 R2 H) as [H1 H2]. split.
  - apply (SDL_HasIntersection_overlap R1 R2 H1 H2).
  - apply SDL_HasIntersection_sym.
Qed.

(** ** Catch and miss *)

Lemma GameState_eqb_PLAYING (s : GameState) :
  GameState_eqb s PLAYING = true <-> s = PLAYING.
Proof. destruct s; simpl; split; intros; congruence. Qed.

Lemma catch_occurs_true (g : Game) (i : FrameInput) :
  catch_occurs g i = true <->
  currentState (after_input g i) = PLAYING /\
  SDL_HasIntersection (player (at_collision_test g i))
                      (block (at_collision_test g i)) = true.
Proof.
  unfold catch_occurs. rewrite andb_true_iff, GameState_eqb_PLAYING. tauto.
Qed.

Lemma miss_occurs_true (g : Game) (i : FrameInput) :
  miss_occurs g i = true <->
  currentState (after_input g i) = PLAYING /\
  ry (block (collision_check (at_collision_test g i))) > SCREEN_HEIGHT.
Proof.
  unfold miss_occurs. rewrite andb_true_iff, GameState_eqb_PLAYING.
  rewrite Z.gtb_gt. tauto.
Qed.

(** A frame with a miss, and a frame without. *)
Lemma frame_miss (g : Game) (i : FrameInput) :
  miss_occurs g i = true ->
  catch_occurs g i = false /\
  ry (block (at_collision_test g i)) > SCREEN_HEIGHT /\
  frame g i = miss_check (at_collision_test g i).
Proof.
  rewrite miss_occurs_true. intros [Hs Hy].
  destruct (frame_cases g i) as [(Hs' & E) | [(_ & Hc & E) | [(_ & Hc & Hy' & E) |
                                 (_ & Hc & Hy' & E)]]].
  - contradiction.
  - rewrite (collision_check_catch _ Hc) in Hy. simpl in Hy. unfold_consts. lia.
  - rewrite (collision_check_idle _ Hc) in Hy. lia.
  - repeat split; try assumption.
    unfold catch_occurs. rewrite Hc. apply andb_false_r.
Qed.

Lemma frame_no_miss (g : Game) (i : FrameInput) :
  miss_occurs g i = false ->
  mistakes (frame g i) = mistakes g /\
  currentState (frame g i) = currentState (after_input g i).
Proof.
  intros Hm.
  destruct (after_input_rel g i) as (Am & _).
  destruct (at_collision_test_fields g i) as (Ts & Tm & _).
  destruct (frame_cases g i) as [(Hs' & E) | [(_ & Hc & E) | [(_ & Hc & Hy' & E) |
                                 (Hs & Hc & Hy' & E)]]]; rewrite E.
  - split; [exact Am | reflexivity].
  - rewrite (collision_check_catch _ Hc). proj_simpl. split; congruence.
  - split; congruence.
  - exfalso. assert (miss_occurs g i = true) as Ht; [ | congruence].
    apply miss_occurs_true. split; [exact Hs | ].
    rewrite (collision_check_idle _ Hc). exact Hy'.
Qed.

(** C2. In every reachable state 0 <= mistakes <= MAX_MISTAKES.  A frame
    never lowers the counter; it changes it only by a miss while PLAYING, and
    then by exactly one.  The frame in which the counter reaches MAX_MISTAKES
    runs its logic in PLAYING and ends in GAME_OVER.  In particular a miss
    check that finds the block below the screen (y > 600) with four mistakes
    counted makes them five, switches to GAME_OVER and halts the music. *)
Theorem mistakes_bounded_monotone_game_over (g : Game) (i : FrameInput) :
  reachable g ->
  0 <= mistakes g <= MAX_MISTAKES /\
  mistakes g <= mistakes (frame g i) /\
  (mistakes (frame g i) <> mistakes g ->
   currentState (after_input g i) = PLAYING /\ miss_occurs g i = true /\
   mistakes (frame g i) = mistakes g + 1) /\
  (mistakes g < MAX_MISTAKES -> mistakes (frame g i) = MAX_MISTAKES ->
   currentState (after_input g i) = PLAYING /\
   currentState (frame g i) = GAME_OVER) /\
  (miss_occurs g i = true -> mistakes g = 4 ->
   mistakes (frame g i) = 5 /\ currentState (frame g i) = GAME_OVER /\
   musicPlaying (frame g i) = false) /\
  (forall t : Game,
     currentState t = PLAYING -> mistakes t = 4 -> ry (block t) > SCREEN_HEIGHT ->
     mistakes (miss_check t) = 5 /\ currentState (miss_check t) = GAME_OVER /\
     musicPlaying (miss_check t) = false).
Proof.
  intros Hg. apply reachable_inv in Hg.
  pose proof (after_input_inv g i Hg) as (_ & _ & Hs).
  destruct (after_input_rel g i) as (Am & _).
  destruct (at_collision_test_fields g i) as (Ts & Tm & _).
  assert (0 <= mistakes g <= MAX_MISTAKES) as Hb.
  { destruct Hg as [(_ & _ & Hm) _]. unfold state_mistakes_ok in Hm.
    destruct (currentState g); unfold_consts; lia. }
  assert (miss_occurs g i = true ->
          currentState (after_input g i) = PLAYING /\
          mistakes (frame g i) = mistakes g + 1 /\
          (mistakes g + 1 >= 5 ->
           currentState (frame g i) = GAME_OVER /\ musicPlaying (frame g i) = false))
    as Hmiss.
  { intros Hm. destruct (frame_miss g i Hm) as (_ & Hy & E).
    apply miss_occurs_true in Hm. destruct Hm as [Hp _].
    unfold state_mistakes_ok in Hs. rewrite Hp in Hs.
    rewrite E, (miss_check_fires _ Hy). proj_simpl. rewrite Tm, Am in *.
    unfold_consts. norm_int.
    destruct (Z.geb_spec (mistakes g + 1) 5); repeat split; trivial; lia. }
  assert (forall t : Game,
            currentState t = PLAYING -> mistakes t = 4 ->
            ry (block t) > SCREEN_HEIGHT ->
            mistakes (miss_check t) = 5 /\ currentState (miss_check t) = GAME_OVER /\
            musicPlaying (miss_check t) = false) as Hscenario.
  { intros t _ H4 Hy. rewrite (miss_check_fires _ Hy), H4. simpl. tauto. }
  split; [exact Hb | ].
  destruct (miss_occurs g i) eqn:Hm.
  - destruct (Hmiss eq_refl) as (Hp & E & Hover).
    split; [lia | ]. split; [tauto | ]. split; [ | split; [ | exact Hscenario]].
    + intros _ H5. split; [exact Hp | ]. apply Hover. unfold_consts. lia.
    + intros _ H4. split; [lia | ]. apply Hover. lia.
  - destruct (frame_no_miss g i Hm) as [E Es].
    split; [lia | ]. split; [congruence | ].
    split; [ | split; [discriminate | exact Hscenario]].
    intros Hlt H5. unfold_consts. lia.
Qed.

Lemma miss_check_player (g : Game) : player (miss_check g) = player g.
Proof.
  destruct (Z.le_gt_cases (ry (block g)) SCREEN_HEIGHT) as [H | H].
  - rewrite (miss_check_idle _ H). reflexivity.
  - rewrite (miss_check_fires g); [reflexivity | lia].
Qed.

Lemma miss_check_isRunning (g : Game) : isRunning (miss_check g) = isRunning g.
Proof.
  destruct (Z.le_gt_cases (ry (block g)) SCREEN_HEIGHT) as [H | H].
  - rewrite (miss_check_idle _ H). reflexivity.
  - rewrite (miss_check_fires g); [reflexivity | lia].
Qed.

Lemma collision_check_player (g : Game) : player (collision_check g) = player g.
Proof.
  unfold collision_check. destruct (SDL_HasIntersection _ _); [ | reflexivity].
  rewrite respawn_block_eq. reflexivity.
Qed.

Lemma collision_check_isRunning (g : Game) :
  isRunning (collision_check g) = isRunning g.
Proof.
  unfold collision_check. destruct (SDL_HasIntersection _ _); [ | reflexivity].
  rewrite respawn_block_eq. reflexivity.
Qed.

(** C3. In every frame whose game logic runs (the state is PLAYING once the
    events and the keyboard have been applied), the paddle's x after the
    clamping step satisfies 0 <= x <= SCREEN_WIDTH - PADDLE_WIDTH = 700,
    whatever pointer and keyboard input the frame applied before; nothing
    later in the frame moves the paddle, so the frame ends with that x. *)
Theorem paddle_clamped_to_screen (g : Game) (i : FrameInput) :
  reachable g ->
  currentState (after_input g i) = PLAYING ->
  SCREEN_WIDTH - PADDLE_WIDTH = 700 /\
  0 <= rx (player (clamp_paddle (after_input g i))) <= SCREEN_WIDTH - PADDLE_WIDTH /\
  rx (player (frame g i)) = rx (player (clamp_paddle (after_input g i))).
Proof.
  intros Hg Hp. apply reachable_inv in Hg.
  pose proof (after_input_inv g i Hg) as ((Fw & _) & _).
  split; [reflexivity | ]. split; [apply clamp_paddle_x, Fw | ].
  unfold frame, game_logic. rewrite Hp.
  rewrite miss_check_player, collision_check_player. reflexivity.
Qed.

(** C4. In every frame whose collision test finds the paddle and the block
    intersecting, the block ends the frame at y = 0 with x the next random
    number modulo 770, so 0 <= x < SCREEN_WIDTH - BLOCK_SIZE = 770, and the
    mistake counter is the one the frame started with.  In particular the
    paddle (350,570,100,20) and the block (380,565,30,30) intersect, and the
    collision check then resets the block to y = 0 with 0 <= x < 770. *)
Theorem catch_resets_block (g : Game) (i : FrameInput) :
  catch_occurs g i = true ->
  (ry (block (frame g i)) = 0 /\
   rx (block (frame g i)) =
     Int.rem (rand_seq (randCalls g)) (SCREEN_WIDTH - BLOCK_SIZE) /\
   0 <= rx (block (frame g i)) < SCREEN_WIDTH - BLOCK_SIZE /\
   SCREEN_WIDTH - BLOCK_SIZE = 770 /\
   mistakes (frame g i) = mistakes g) /\
  (forall t : Game,
     player t = mkRect 350 570 100 20 -> block t = mkRect 380 565 30 30 ->
     SDL_HasIntersection (player t) (block t) = true /\
     ry (block (collision_check t)) = 0 /\
     0 <= rx (block (collision_check t)) < 770 /\
     mistakes (collision_check t) = mistakes t).
Proof.
  intros Hc. apply catch_occurs_true in Hc. destruct Hc as [Hp Hc]. split.
  - destruct (after_input_rel g i) as (Am & _ & Arc & _).
    destruct (at_collision_test_fields g i) as (_ & Tm & _ & _ & Trc & _).
    pose proof (rand_rem_bound (randCalls g)) as Hr.
    destruct (frame_cases g i) as [(Hs' & E) | [(_ & _ & E) | [(_ & Hc' & _) |
                                   (_ & Hc' & _)]]]; try congruence.
    rewrite E, (collision_check_catch _ Hc). proj_simpl.
    rewrite Trc, Arc, Tm, Am. unfold Int.rem. unfold_consts.
    change (800 - 30) with 770. repeat split; trivial; lia.
  - intros t Ht Hb.
    assert (SDL_HasIntersection (player t) (block t) = true) as Hi.
    { rewrite Ht, Hb. reflexivity. }
    pose proof (rand_rem_bound (randCalls t)) as Hr.
    rewrite (collision_check_catch _ Hi). proj_simpl.
    repeat split; trivial; lia.
Qed.

(** C5 (amended). Touching edges do not count as intersecting: two
    rectangles of positive size that touch exactly on an edge (the bottom
    edge y2+h2 of one equal to the top edge y1 of the other, or likewise left
    and right) are reported as not intersecting by the collision test; the
    test asks for an overlap of positive width and height. *)
Theorem touching_edges_do_not_intersect (R1 R2 : SDL_Rect) :
  rect_ok R1 -> rect_ok R2 ->
  ry R2 + rh R2 = ry R1 \/ ry R1 + rh R1 = ry R2 \/
  rx R2 + rw R2 = rx R1 \/ rx R1 + rw R1 = rx R2 ->
  SDL_HasIntersection R1 R2 = false.
Proof.
  intros H1 H2 Htouch.
  destruct (SDL_HasIntersection R1 R2) eqn:E; [ | reflexivity].
  apply (SDL_HasIntersection_overlap R1 R2 H1 H2) in E.
  unfold overlap_spec in E. lia.
Qed.

(** ** The menu *)

Lemma playButtonRect_eq : playButtonRect = mkRect 275 250 250 100.
Proof. reflexivity. Qed.

Lemma point_in_play_button (mouse : SDL_Point) :
  SDL_PointInRect mouse playButtonRect = true <->
  275 <= px mouse < 525 /\ 250 <= py mouse < 350.
Proof.
  rewrite playButtonRect_eq. unfold SDL_PointInRect. proj_simpl.
  change (Int.add 275 250) with 525. change (Int.add 250 100) with 350.
  rewrite !andb_true_iff, !Z.geb_le, !Z.ltb_lt. lia.
Qed.

(** C6. In the MENU state a pointer-down event switches the state to PLAYING
    exactly when the pointer position lies inside the play-button rectangle
    (x=275, y=250, w=250, h=100); then only the state and the music change,
    and outside the rectangle no variable changes.  In particular a
    pointer-down at (500,500) changes nothing and one at (400,300) switches
    to PLAYING and starts the music. *)
Theorem menu_click_starts_game (g : Game) (mouse : SDL_Point) :
  currentState g = MENU ->
  playButtonRect = mkRect 275 250 250 100 /\
  (SDL_PointInRect mouse playButtonRect = true <->
   275 <= px mouse < 525 /\ 250 <= py mouse < 350) /\
  (currentState (handle_event g (MouseButtonDownEvent, mouse)) = PLAYING <->
   SDL_PointInRect mouse playButtonRect = true) /\
  (SDL_PointInRect mouse playButtonRect = true ->
   handle_event g (MouseButtonDownEvent, mouse) =
   set_musicPlaying (set_currentState g PLAYING) true) /\
  (SDL_PointInRect mouse playButtonRect = false ->
   handle_event g (MouseButtonDownEvent, mouse) = g) /\
  handle_event g (MouseButtonDownEvent, mkPoint 500 500) = g /\
  handle_event g (MouseButtonDownEvent, mkPoint 400 300) =
  set_musicPlaying (set_currentState g PLAYING) true.
Proof.
  intros Hm. split; [apply playButtonRect_eq | ].
  split; [apply point_in_play_button | ].
  unfold handle_event. rewrite Hm.
  assert (forall p, mkPoint (px p) (py p) = p) as Heta by (intros []; reflexivity).
  rewrite Heta.
  split; [ | split; [ | split; [ | split]]].
  - destruct (SDL_PointInRect mouse playButtonRect); simpl.
    + tauto.
    + rewrite Hm. split; discriminate.
  - intros ->. reflexivity.
  - intros ->. reflexivity.
  - reflexivity.
  - reflexivity.
Qed.

(** ** The falling block *)

Lemma catch_occurs_false (g : Game) (i : FrameInput) :
  currentState (after_input g i) = PLAYING ->
  catch_occurs g i = false ->
  SDL_HasIntersection (player (at_collision_test g i))
                      (block (at_collision_test g i)) = false.
Proof.
  intros Hp. unfold catch_occurs. rewrite Hp. simpl. tauto.
Qed.

Lemma frame_skips_logic (g : Game) (i : FrameInput) :
  currentState (after_input g i) <> PLAYING -> block (frame g i) = block g.
Proof.
  intros Hn. destruct (after_input_rel g i) as (_ & Hb & _).
  unfold frame, game_logic.
  destruct (currentState (after_input g i)); congruence.
Qed.

Lemma frame_not_menu (g : Game) (i : FrameInput) :
  currentState (after_input g i) = PLAYING -> currentState (frame g i) <> MENU.
Proof.
  intros Hp. destruct (at_collision_test_fields g i) as (Ts & _).
  destruct (frame_cases g i) as [(Hs' & E) | [(_ & Hc & E) | [(_ & _ & _ & E) |
                                 (_ & _ & Hy & E)]]]; rewrite E.
  - congruence.
  - rewrite (collision_check_catch _ Hc). proj_simpl. congruence.
  - congruence.
  - rewrite (miss_check_fires _ Hy). proj_simpl.
    destruct (_ >=? _); congruence.
Qed.

(** C7. In every frame of a run whose game logic runs and in which neither a
    catch nor a miss happens, the block's y grows by exactly BLOCK_SPEED = 5
    and its x stays; when the logic does not run (the state is MENU or
    GAME_OVER once the input is applied), the block is left as it was. *)
Theorem block_falls_by_block_speed (g : Game) (i : FrameInput) :
  (reachable g ->
   currentState (after_input g i) = PLAYING ->
   catch_occurs g i = false -> miss_occurs g i = false ->
   ry (block (frame g i)) = ry (block g) + BLOCK_SPEED /\
   ry (block g) < ry (block (frame g i)) /\
   rx (block (frame g i)) = rx (block g)) /\
  (currentState (after_input g i) <> PLAYING -> block (frame g i) = block g) /\
  (currentState g = GAME_OVER -> block (frame g i) = block g) /\
  (currentState (frame g i) = MENU -> block (frame g i) = block g).
Proof.
  destruct (after_input_rel g i) as (_ & _ & _ & _ & _ & _ & _ & Hst & _).
  split; [ | split; [apply frame_skips_logic | split]].
  - intros Hg Hp Hc Hm.
    destruct (at_collision_test_shape g i Hg)
      as (_ & _ & _ & _ & _ & _ & Bx & _ & By & _).
    pose proof (catch_occurs_false g i Hp Hc) as Hc'.
    destruct (frame_cases g i) as [(Hs' & E) | [(_ & Hi & E) | [(_ & _ & Hy & E) |
                                   (_ & _ & Hy & E)]]]; try congruence.
    + rewrite E, By, Bx. unfold_consts. lia.
    + exfalso. assert (miss_occurs g i = true) as Ht; [ | congruence].
      apply miss_occurs_true. split; [exact Hp | ].
      rewrite (collision_check_idle _ Hc'). exact Hy.
  - intros Ho. apply frame_skips_logic.
    destruct Hst as [E | [E _]]; congruence.
  - intros Hmenu. apply frame_skips_logic. intros Hp.
    apply (frame_not_menu g i Hp), Hmenu.
Qed.

(** ** Leaving the loop *)

Lemma poll_events_stops (evs : list (SDL_Event * SDL_Point)) (g : Game)
      (mouse : SDL_Point) :
  In (QuitEvent, mouse) evs \/ In (KeyDownEvent SDLK_ESCAPE, mouse) evs ->
  isRunning (poll_events g evs) = false.
Proof.
  unfold poll_events. revert g.
  induction evs as [ | ev evs IH]; intros g Hin; simpl in *; [tauto | ].
  assert (ev = (QuitEvent, mouse) \/ ev = (KeyDownEvent SDLK_ESCAPE, mouse) \/
          (In (QuitEvent, mouse) evs \/ In (KeyDownEvent SDLK_ESCAPE, mouse) evs))
    as [E | [E | Hrest]] by tauto.
  - destruct (poll_events_rel evs (handle_event g ev)) as (_ & _ & _ & _ & _ & _ & _ & _ & _ & Hq).
    apply Hq. subst ev. reflexivity.
  - destruct (poll_events_rel evs (handle_event g ev)) as (_ & _ & _ & _ & _ & _ & _ & _ & _ & Hq).
    apply Hq. subst ev. reflexivity.
  - apply IH, Hrest.
Qed.

Lemma game_logic_isRunning (g : Game) : isRunning (game_logic g) = isRunning g.
Proof.
  unfold game_logic. destruct (currentState g); try reflexivity.
  rewrite miss_check_isRunning, collision_check_isRunning.
  rewrite (clamp_paddle_only_x g). reflexivity.
Qed.

(** C8. Whatever the state (MENU, PLAYING or GAME_OVER), a frame that
    handles a window-close event or an Escape key-down leaves [isRunning]
    false: handling the event clears the flag without asking, nothing later in
    the frame sets it again, and the loop makes no further pass. *)
Theorem quit_or_escape_ends_loop (g : Game) (i : FrameInput)
        (mouse : SDL_Point) (rest : list FrameInput) :
  In (QuitEvent, mouse) (events i) \/
  In (KeyDownEvent SDLK_ESCAPE, mouse) (events i) ->
  isRunning (handle_event g (QuitEvent, mouse)) = false /\
  isRunning (handle_event g (KeyDownEvent SDLK_ESCAPE, mouse)) = false /\
  isRunning (frame g i) = false /\
  run (frame g i) rest = frame g i /\
  iterations (frame g i) rest = 0%nat.
Proof.
  intros Hin.
  assert (isRunning (frame g i) = false) as Hstop.
  { unfold frame, after_input. rewrite game_logic_isRunning.
    destruct (keyboard_input_rel (poll_events g (events i)) (keyLeft i) (keyRight i))
      as (_ & _ & _ & _ & _ & _ & _ & _ & _ & Hq).
    apply Hq. apply (poll_events_stops _ _ mouse Hin). }
  repeat split; try reflexivity; try exact Hstop.
  - destruct rest; simpl; [ | rewrite Hstop]; reflexivity.
  - destruct rest; simpl; [ | rewrite Hstop]; reflexivity.
Qed.

(** C9. In a single frame catch and miss exclude each other and the catch
    comes first: when the paddle and the block intersect, the block is back at
    y = 0 before the miss check, which then does not fire; the frame prints
    the catch line only and leaves the mistake counter alone.  A frame with a
    miss has no catch. *)
Theorem catch_excludes_miss (g : Game) (i : FrameInput) :
  catch_occurs g i && miss_occurs g i = false /\
  (catch_occurs g i = true ->
   ry (block (collision_check (at_collision_test g i))) = 0 /\
   miss_check (collision_check (at_collision_test g i)) =
     collision_check (at_collision_test g i) /\
   mistakes (frame g i) = mistakes g /\
   stdout (frame g i) = stdout g ++ [CaughtIt]) /\
  (miss_occurs g i = true ->
   catch_occurs g i = false /\
   mistakes (frame g i) = Int.add (mistakes g) 1 /\
   existsb Line_is_caught (skipn (length (stdout g)) (stdout (frame g i))) = false).
Proof.
  destruct (after_input_rel g i) as (Am & _ & _ & Ao & _).
  destruct (at_collision_test_fields g i) as (_ & Tm & _ & _ & _ & To & _).
  assert (miss_occurs g i = true -> catch_occurs g i = false) as Hex.
  { intros Hm. apply (frame_miss g i Hm). }
  split; [ | split].
  - destruct (miss_occurs g i); [rewrite Hex by reflexivity | ];
      auto using andb_false_r.
  - intros Hc.
    assert (miss_occurs g i = false) as Hm.
    { destruct (miss_occurs g i); [rewrite Hex in Hc by reflexivity | ]; congruence. }
    apply catch_occurs_true in Hc. destruct Hc as [Hp Hc].
    assert (frame g i = collision_check (at_collision_test g i)) as E.
    { destruct (frame_cases g i) as [(Hs' & E) | [(_ & _ & E) | [(_ & Hc' & _) |
                                     (_ & Hc' & _)]]]; congruence. }
    split; [ | split; [ | split]].
    + rewrite (collision_check_catch _ Hc). reflexivity.
    + apply miss_check_idle. rewrite (collision_check_catch _ Hc). simpl.
      unfold_consts. lia.
    + apply (frame_no_miss g i Hm).
    + rewrite E, (collision_check_catch _ Hc). proj_simpl. congruence.
  - intros Hm. split; [apply Hex, Hm | ].
    destruct (frame_miss g i Hm) as (_ & Hy & E).
    rewrite E, (miss_check_fires _ Hy). proj_simpl. rewrite Tm, Am, To, Ao.
    split; [reflexivity | ].
    destruct (_ >=? _); rewrite <- ?app_assoc, skipn_app, skipn_all, Nat.sub_diag;
      reflexivity.
Qed.

(** C10. In every reachable state the block's x lies in
    [0, SCREEN_WIDTH - BLOCK_SIZE) = [0, 770) and its y is a multiple of
    BLOCK_SPEED = 5 between 0 and the screen height; at the collision test of
    a frame the y is again a multiple of 5.  Hence the miss check fires only
    when y is exactly 605 (never at 601), from a block that started the frame
    at y = 600. *)
Theorem block_position_invariant (g : Game) (i : FrameInput) :
  reachable g ->
  0 <= rx (block g) < SCREEN_WIDTH - BLOCK_SIZE /\
  SCREEN_WIDTH - BLOCK_SIZE = 770 /\
  (BLOCK_SPEED | ry (block g)) /\
  0 <= ry (block g) <= SCREEN_HEIGHT /\
  (BLOCK_SPEED | ry (block (at_collision_test g i))) /\
  ry (block (at_collision_test g i)) <> 601 /\
  (miss_occurs g i = true ->
   ry (block (collision_check (at_collision_test g i))) = 605 /\
   ry (block g) = 600).
Proof.
  intros Hg.
  destruct (at_collision_test_shape g i Hg)
    as (_ & _ & _ & _ & _ & _ & _ & _ & By & Byr & Bm).
  pose proof (reachable_inv g Hg) as ((_ & (Hx & Hy & Hm) & _) & _).
  unfold_consts.
  split; [exact Hx | ]. split; [reflexivity | ].
  split; [apply Z.mod_divide; [lia | exact Hm] | ].
  split; [exact Hy | ].
  split; [apply Z.mod_divide; [lia | exact Bm] | ].
  split; [intros E; rewrite E in Bm; discriminate | ].
  intros Hmiss. destruct (frame_miss g i Hmiss) as (Hc & Hgt & _).
  apply miss_occurs_true in Hmiss. destruct Hmiss as [Hp _].
  rewrite (collision_check_idle _ (catch_occurs_false g i Hp Hc)).
  pose proof (Z.div_mod (ry (block (at_collision_test g i))) 5) as Hd.
  unfold_consts. lia.
Qed.

(** ** Loading a texture *)

Lemma Resource_eqb_refl (r : Resource) : Resource_eqb r r = true.
Proof. destruct r; simpl; try reflexivity; apply String.eqb_refl. Qed.

(** X1. [loadTexture] returns a texture exactly when both the image load and
    the texture creation succeed, and then it is the texture of that path; it
    writes to standard error exactly when it returns none; and whatever
    happens the surface it loaded is freed again: of what the call acquires,
    only the returned texture is still held afterwards. *)
Theorem loadTexture_frees_surface (env : Env) (path : string)
        (held : list Resource) :
  (fst (loadTexture env path) = Some path <->
   IMG_Load_ok env path && SDL_CreateTextureFromSurface_ok env path = true) /\
  (fst (loadTexture env path) <> Some path -> fst (loadTexture env path) = None) /\
  (existsb is_cerr (snd (loadTexture env path)) = true <->
   fst (loadTexture env path) = None) /\
  track held (snd (loadTexture env path)) =
  Some match fst (loadTexture env path) with
       | Some p => Texture p :: held
       | None => held
       end.
Proof.
  unfold loadTexture.
  destruct (IMG_Load_ok env path), (SDL_CreateTextureFromSurface_ok env path);
    simpl; rewrite ?String.eqb_refl; simpl;
    repeat split; intros; try congruence; try discriminate.
Qed.

(** ** Startup and exit *)

Lemma land_png_test (r : Z) :
  (Z.land r IMG_INIT_PNG =? 0) = negb (Z.testbit r 1).
Proof.
  unfold IMG_INIT_PNG. change 2 with (2 ^ 1).
  destruct (Z.testbit r 1) eqn:E; cbn [negb].
  - apply Z.eqb_neq. intros H.
    assert (Z.testbit (Z.land r (2 ^ 1)) 1 = false) as F
        by (rewrite H; apply Z.bits_0).
    rewrite Z.land_spec, E, Z.pow2_bits_true in F by lia. discriminate.
  - apply Z.eqb_eq. apply Z.bits_inj'. intros n Hn.
    rewrite Z.land_spec, Z.bits_0, Z.pow2_bits_eqb by lia.
    destruct (Z.eqb_spec 1 n) as [<- | _]; [rewrite E | ]; auto using andb_false_r.
Qed.

(** Case analysis on every test [startup] makes. *)
Ltac startup_cases env :=
  unfold startup, loadTexture;
  destruct (SDL_Init_ret env <? 0) eqn:Esdl; [ | 
  destruct (Z.land (IMG_Init_ret env) IMG_INIT_PNG =? 0) eqn:Eimg; [ |
  destruct (Mix_OpenAudio_ret env <? 0) eqn:Emix; [ |
  destruct (SDL_CreateWindow_ok env) eqn:Ewin; [ 
  destruct (SDL_CreateRenderer_ok env) eqn:Eren; [
  destruct (IMG_Load_ok env play_button_png) eqn:Ep1;
  destruct (SDL_CreateTextureFromSurface_ok env play_button_png) eqn:Ep2;
  destruct (IMG_Load_ok env game_over_png) eqn:Eg1;
  destruct (SDL_CreateTextureFromSurface_ok env game_over_png) eqn:Eg2;
  destruct (Mix_LoadMUS_ok env) eqn:Emus | ] | ]]]];
  cbn [negb fst snd app].

Lemma startup_ok (env : Env) : snd (startup env) = startup_succeeds env.
Proof.
  unfold startup_succeeds.
  rewrite !Z.leb_antisym.
  rewrite <- (negb_involutive (Z.testbit (IMG_Init_ret env) 1)), <- land_png_test.
  startup_cases env; reflexivity.
Qed.

Lemma startup_success_calls (env : Env) :
  startup_succeeds env = true ->
  fst (startup env) =
  [SDL_Init (SDL_Init_ret env); IMG_Init (IMG_Init_ret env);
   Mix_OpenAudio (Mix_OpenAudio_ret env); SDL_CreateWindow true;
   SDL_CreateRenderer true; srand;
   IMG_Load play_button_png true;
   SDL_CreateTextureFromSurface play_button_png true;
   SDL_FreeSurface play_button_png;
   IMG_Load game_over_png true;
   SDL_CreateTextureFromSurface game_over_png true;
   SDL_FreeSurface game_over_png;
   Mix_LoadMUS true] /\
  (SDL_Init_ret env <? 0) = false /\
  (Z.land (IMG_Init_ret env) IMG_INIT_PNG =? 0) = false /\
  (Mix_OpenAudio_ret env <? 0) = false.
Proof.
  rewrite <- startup_ok.
  startup_cases env; intros H; try discriminate H. repeat split; reflexivity.
Qed.

Lemma main_failure (env : Env) (inputs : list FrameInput) :
  startup_succeeds env = false -> main env inputs = (Some 1, fst (startup env)).
Proof.
  rewrite <- startup_ok. unfold main.
  destruct (startup env) as [t ok]. simpl. intros ->. reflexivity.
Qed.

Lemma main_success (env : Env) (inputs : list FrameInput) :
  startup_succeeds env = true ->
  main env inputs =
  if isRunning (run init inputs)
  then (None, fst (startup env) ++ loop_calls init inputs)
  else (Some 0, (fst (startup env) ++ loop_calls init inputs) ++ cleanup).
Proof.
  rewrite <- startup_ok. unfold main.
  destruct (startup env) as [t ok]. simpl. intros ->. reflexivity.
Qed.

(** X2. [main] returns 1 exactly when one of the startup steps fails: SDL,
    the PNG support of SDL_image (bit 1 of the flags [IMG_Init] returns,
    whatever the other bits), the mixer, the window, the renderer, either of
    the two textures or the music.  Otherwise it returns 0 once the loop has
    ended, and has not returned while the loop still runs. *)
Theorem main_exit_code (env : Env) (inputs : list FrameInput) :
  fst (main env inputs) =
  if startup_succeeds env
  then if isRunning (run init inputs) then None else Some 0
  else Some 1.
Proof.
  destruct (startup_succeeds env) eqn:Hs.
  - rewrite (main_success env inputs Hs).
    destruct (isRunning (run init inputs)); reflexivity.
  - rewrite (main_failure env inputs Hs). reflexivity.
Qed.




Lemma loop_calls_no_cerr (inputs : list FrameInput) (g : Game) :
  existsb is_cerr (loop_calls g inputs) = false.
Proof.
  revert g. induction inputs as [ | i rest IH]; intros g; cbn [loop_calls]; [reflexivity | ].
  destruct (isRunning g); [ | reflexivity].
  rewrite existsb_app, IH. unfold render.
  destruct (currentState (frame g i)); reflexivity.
Qed.

Lemma loop_calls_presents (inputs : list FrameInput) (g : Game) :
  length (filter is_present (loop_calls g inputs)) = iterations g inputs.
Proof.
  revert g. induction inputs as [ | i rest IH]; intros g; cbn [loop_calls iterations]; [reflexivity | ].
  destruct (isRunning g); [ | reflexivity].
  rewrite filter_app, length_app, IH. unfold render.
  destruct (currentState (frame g i)); reflexivity.
Qed.

(** X3. [main] writes to standard error exactly when a startup step fails,
    that is exactly when it returns 1; the loop and the cleanup never do. *)
Theorem main_reports_failure (env : Env) (inputs : list FrameInput) :
  existsb is_cerr (snd (main env inputs)) = negb (startup_succeeds env) /\
  (existsb is_cerr (snd (main env inputs)) = true <->
   fst (main env inputs) = Some 1).
Proof.
  assert (existsb is_cerr (snd (main env inputs)) = negb (startup_succeeds env)) as H.
  { destruct (startup_succeeds env) eqn:Hs.
    - rewrite (main_success env inputs Hs).
      destruct (startup_success_calls env Hs) as (-> & _).
      destruct (isRunning (run init inputs)); cbn [snd];
        rewrite ?existsb_app, loop_calls_no_cerr; reflexivity.
    - rewrite (main_failure env inputs Hs). cbn [snd].
      rewrite <- startup_ok in Hs. revert Hs.
      startup_cases env; intros Hs; try discriminate Hs; reflexivity. }
  split; [exact H | ].
  rewrite H, main_exit_code.
  destruct (startup_succeeds env); simpl.
  - destruct (isRunning (run init inputs)); split; discriminate.
  - tauto.
Qed.

(** X4. [main] presents one rendering per pass of the loop and none when the
    startup fails: the number of [SDL_RenderPresent] calls is the number of
    passes made if every startup step succeeds, and 0 otherwise. *)
Theorem main_presents_one_frame_per_pass (env : Env) (inputs : list FrameInput) :
  length (filter is_present (snd (main env inputs))) =
  if startup_succeeds env then iterations init inputs else 0%nat.
Proof.
  destruct (startup_succeeds env) eqn:Hs.
  - rewrite (main_success env inputs Hs).
    destruct (startup_success_calls env Hs) as (-> & _).
    destruct (isRunning (run init inputs)); cbn [snd];
      rewrite ?filter_app, ?length_app, loop_calls_presents; simpl; lia.
  - rewrite (main_failure env inputs Hs). cbn [snd].
    rewrite <- startup_ok in Hs. revert Hs.
    startup_cases env; intros Hs; try discriminate Hs; reflexivity.
Qed.





(** ** Leaving the loop, continued *)

Lemma handle_event_isRunning (g : Game) (ev : SDL_Event * SDL_Point) :
  isRunning (handle_event g ev) = isRunning g && negb (is_quit ev).
Proof.
  destruct ev as [e mouse]. unfold handle_event, is_quit. cbn [fst].
  destruct e as [ | sym | | mx | ]; cbn [negb].
  - simpl. rewrite andb_false_r. reflexivity.
  - destruct (sym =? SDLK_ESCAPE); simpl;
      rewrite ?andb_false_r, ?andb_true_r; reflexivity.
  - rewrite andb_true_r.
    destruct (currentState g); try reflexivity.
    destruct (SDL_PointInRect _ _); reflexivity.
  - rewrite andb_true_r. destruct (currentState g); reflexivity.
  - rewrite andb_true_r. reflexivity.
Qed.

Lemma poll_events_isRunning (evs : list (SDL_Event * SDL_Point)) (g : Game) :
  isRunning (poll_events g evs) = isRunning g && negb (existsb is_quit evs).
Proof.
  unfold poll_events. revert g.
  induction evs as [ | ev evs IH]; intros g; cbn [fold_left existsb].
  - rewrite andb_true_r. reflexivity.
  - rewrite IH, handle_event_isRunning, negb_orb, andb_assoc. reflexivity.
Qed.

Lemma keyboard_input_isRunning (g : Game) (l r : bool) :
  isRunning (keyboard_input g l r) = isRunning g.
Proof.
  unfold keyboard_input. destruct (currentState g), l, r; reflexivity.
Qed.

Lemma frame_isRunning (g : Game) (i : FrameInput) :
  isRunning (frame g i) = isRunning g && negb (frame_quits i).
Proof.
  unfold frame, after_input, frame_quits.
  rewrite game_logic_isRunning, keyboard_input_isRunning.
  apply poll_events_isRunning.
Qed.

Lemma run_isRunning (inputs : list FrameInput) (g : Game) :
  isRunning (run g inputs) = isRunning g && negb (existsb frame_quits inputs).
Proof.
  revert g. induction inputs as [ | i rest IH]; intros g; cbn [run existsb].
  - rewrite andb_true_r. reflexivity.
  - destruct (isRunning g) eqn:Hr.
    + rewrite IH, frame_isRunning, Hr, negb_orb. reflexivity.
    + rewrite Hr. reflexivity.
Qed.

Lemma init_isRunning : isRunning init = true.
Proof. reflexivity. Qed.

(** X8. Once the startup has succeeded, window close and Escape are the only
    way out: [main] returns, with 0 and after the cleanup calls, exactly when
    some frame handles a window-close event or an Escape key-down; without
    one, the loop is still running after any number of frames. *)
Theorem main_returns_iff_quit (env : Env) (inputs : list FrameInput) :
  startup_succeeds env = true ->
  (fst (main env inputs) = Some 0 <-> existsb frame_quits inputs = true) /\
  (fst (main env inputs) = None <-> existsb frame_quits inputs = false) /\
  (existsb frame_quits inputs = true ->
   exists calls, snd (main env inputs) = calls ++ cleanup).
Proof.
  intros Hs.
  pose proof (run_isRunning inputs init) as Hr.
  rewrite init_isRunning in Hr. cbn [andb] in Hr.
  rewrite (main_success env inputs Hs), Hr.
  destruct (existsb frame_quits inputs); cbn [negb fst snd].
  - repeat split; try discriminate; try reflexivity.
    intros _. eexists. reflexivity.
  - repeat split; try discriminate; try reflexivity.
Qed.

(** ** The order of the states *)

Lemma game_logic_cases (a : Game) :
  let t := move_block (clamp_paddle a) in
  (currentState a <> PLAYING /\ game_logic a = a) \/
  (currentState a = PLAYING /\
   SDL_HasIntersection (player t) (block t) = true /\
   game_logic a = collision_check t) \/
  (currentState a = PLAYING /\
   SDL_HasIntersection (player t) (block t) = false /\
   ry (block t) <= SCREEN_HEIGHT /\ game_logic a = t) \/
  (currentState a = PLAYING /\
   SDL_HasIntersection (player t) (block t) = false /\
   ry (block t) > SCREEN_HEIGHT /\ game_logic a = miss_check t).
Proof.
  intros t. unfold game_logic.
  destruct (currentState a) eqn:Hs;
    try (left; split; [discriminate | reflexivity]).
  right. fold t.
  destruct (SDL_HasIntersection (player t) (block t)) eqn:Hc.
  - left. repeat split. apply miss_check_idle.
    rewrite (collision_check_catch _ Hc). simpl. unfold_consts. lia.
  - right. rewrite (collision_check_idle _ Hc).
    destruct (Z.le_gt_cases (ry (block t)) SCREEN_HEIGHT) as [Hy | Hy].
    + left. repeat split; [exact Hy | apply miss_check_idle, Hy].
    + right. repeat split. lia.
Qed.

Lemma frame_state_rank (g : Game) (i : FrameInput) :
  (state_rank (currentState g) <= state_rank (currentState (frame g i)))%nat.
Proof.
  destruct (after_input_rel g i) as (_ & _ & _ & _ & _ & _ & _ & Hst & _).
  destruct (at_collision_test_fields g i) as (Ts & _).
  assert (state_rank (currentState g)
          <= state_rank (currentState (after_input g i)))%nat as H1.
  { destruct Hst as [-> | [-> ->]]; simpl; lia. }
  destruct (frame_cases g i) as [(Hs' & E) | [(Hp & Hc & E) | [(Hp & _ & _ & E) |
                                 (Hp & _ & Hy & E)]]]; rewrite E.
  - exact H1.
  - rewrite (collision_check_catch _ Hc). proj_simpl. rewrite Ts. exact H1.
  - rewrite Ts. exact H1.
  - rewrite (miss_check_fires _ Hy). proj_simpl. rewrite Ts.
    rewrite Hp in *. destruct (_ >=? _); simpl in *; lia.
Qed.

(** X9. The state only moves forward, MENU to PLAYING to GAME_OVER: over any
    run, from any state, the state at the end is not an earlier one than the
    state at the start.  There is no way back to the menu and no restart. *)
Theorem state_never_goes_back (g : Game) (inputs : list FrameInput) :
  (state_rank (currentState g) <= state_rank (currentState (run g inputs)))%nat.
Proof.
  revert g. induction inputs as [ | i rest IH]; intros g; cbn [run]; [lia | ].
  destruct (isRunning g); [ | lia].
  pose proof (frame_state_rank g i). pose proof (IH (frame g i)). lia.
Qed.

Lemma set_isRunning_eta (g a : Game) :
  currentState a = currentState g -> mistakes a = mistakes g ->
  player a = player g -> block a = block g ->
  musicPlaying a = musicPlaying g -> randCalls a = randCalls g ->
  stdout a = stdout g ->
  a = set_isRunning g (isRunning a).
Proof.
  destruct a, g. unfold set_isRunning. simpl. intros; subst. reflexivity.
Qed.

Lemma frame_outside_playing (g : Game) (i : FrameInput) :
  currentState (after_input g i) <> PLAYING ->
  frame g i = set_isRunning g (isRunning g && negb (frame_quits i)).
Proof.
  intros Hn. rewrite <- frame_isRunning.
  destruct (after_input_rel g i) as (Hm & Hb & Hr & Ho & _ & _ & _ & _ & Hx & _).
  destruct (Hx Hn) as (Hs & Hp & Hmu).
  assert (frame g i = after_input g i) as E.
  { unfold frame, game_logic. destruct (currentState (after_input g i));
      congruence. }
  rewrite E. apply set_isRunning_eta; assumption.
Qed.

Lemma poll_events_menu (evs : list (SDL_Event * SDL_Point)) (g : Game) :
  currentState g = MENU -> existsb is_play_click evs = false ->
  currentState (poll_events g evs) = MENU.
Proof.
  unfold poll_events. revert g.
  induction evs as [ | ev evs IH]; intros g Hm Hc; cbn [fold_left existsb] in *;
    [exact Hm | ].
  apply orb_false_elim in Hc. destruct Hc as [Hc1 Hc2].
  apply IH; [ | exact Hc2].
  destruct ev as [e mouse]. unfold handle_event, is_play_click in *.
  cbn [fst snd] in Hc1.
  destruct e; try exact Hm.
  - destruct (_ =? _); exact Hm.
  - rewrite Hm. destruct mouse as [mx my]. cbn [px py]. rewrite Hc1. exact Hm.
  - rewrite Hm. exact Hm.
Qed.

(** X10. Outside PLAYING a frame changes nothing but the running flag.  In
    GAME_OVER that is so for every input, over whole runs: mistakes, paddle,
    block, music, output and random numbers stay as they are, whatever is
    clicked or pressed.  In MENU it is so for every frame without a
    pointer-down inside the play button. *)
Theorem frozen_outside_playing (g : Game) (i : FrameInput)
        (inputs : list FrameInput) :
  (currentState g = GAME_OVER ->
   frame g i = set_isRunning g (isRunning g && negb (frame_quits i)) /\
   run g inputs = set_isRunning g (isRunning (run g inputs))) /\
  (currentState g = MENU -> existsb is_play_click (events i) = false ->
   frame g i = set_isRunning g (isRunning g && negb (frame_quits i))).
Proof.
  split.
  - intros Hover.
    assert (forall g' j, currentState g' = GAME_OVER ->
              frame g' j = set_isRunning g' (isRunning g' && negb (frame_quits j)))
      as Hframe.
    { intros g' j Hg'. apply frame_outside_playing.
      destruct (after_input_rel g' j) as (_ & _ & _ & _ & _ & _ & _ & Hst & _).
      destruct Hst as [E | [E _]]; congruence. }
    split; [apply Hframe, Hover | ].
    revert g Hover. induction inputs as [ | j rest IH]; intros g Hover; cbn [run].
    + destruct g; reflexivity.
    + destruct (isRunning g) eqn:Hr;
        [ | destruct g; unfold set_isRunning; simpl in *; congruence].
      assert (currentState (frame g j) = GAME_OVER) as Hf
          by (rewrite (Hframe g j Hover); exact Hover).
      etransitivity; [apply IH, Hf | ].
      generalize (isRunning (run (frame g j) rest)). intros b.
      rewrite (Hframe g j Hover). reflexivity.
  - intros Hm Hc. apply frame_outside_playing.
    unfold after_input, keyboard_input.
    rewrite (poll_events_menu _ _ Hm Hc). cbv iota.
    rewrite (poll_events_menu _ _ Hm Hc). discriminate.
Qed.

(** ** Music, output and random numbers *)

Lemma handle_event_music (g : Game) (ev : SDL_Event * SDL_Point) :
  musicPlaying g = GameState_eqb (currentState g) PLAYING ->
  musicPlaying (handle_event g ev) =
  GameState_eqb (currentState (handle_event g ev)) PLAYING.
Proof.
  intros H. destruct ev as [e mouse]. unfold handle_event.
  destruct e as [ | sym | | mx | ]; try exact H.
  - destruct (sym =? SDLK_ESCAPE); exact H.
  - destruct (currentState g) eqn:Hs; try (rewrite <- Hs in *; exact H).
    destruct (SDL_PointInRect _ _); [reflexivity | rewrite <- Hs in *; exact H].
  - destruct (currentState g) eqn:Hs; rewrite <- Hs in *; exact H.
Qed.

Lemma after_input_music (g : Game) (i : FrameInput) :
  musicPlaying g = GameState_eqb (currentState g) PLAYING ->
  musicPlaying (after_input g i) =
  GameState_eqb (currentState (after_input g i)) PLAYING.
Proof.
  intros H. unfold after_input.
  assert (musicPlaying (poll_events g (events i)) =
          GameState_eqb (currentState (poll_events g (events i))) PLAYING) as Hp.
  { unfold poll_events. revert g H.
    induction (events i) as [ | ev evs IH]; intros g H; simpl; [exact H | ].
    apply IH, handle_event_music, H. }
  revert Hp. generalize (poll_events g (events i)). intros a Ha.
  unfold keyboard_input.
  destruct (currentState a) eqn:Hs;
    [ | destruct (keyLeft i), (keyRight i) | ];
    simpl; rewrite ?Hs in *; simpl in *; assumption.
Qed.

Lemma not_over_before_playing (g : Game) (i : FrameInput) :
  currentState (after_input g i) = PLAYING ->
  GameState_eqb (currentState g) GAME_OVER = false.
Proof.
  intros Hp.
  destruct (after_input_rel g i) as (_ & _ & _ & _ & _ & _ & _ & Hst & _).
  destruct Hst as [E | [E _]]; [rewrite <- E, Hp | rewrite E]; reflexivity.
Qed.

Ltac books_simpl :=
  cbn [filter existsb flat_map map Line_is_caught Line_is_game_over app orb
       length GameState_eqb].

Lemma init_books : books_inv init.
Proof. rewrite init_eq. unfold books_inv. simpl. repeat split; reflexivity. Qed.

Lemma frame_books (g : Game) (i : FrameInput) :
  loop_inv g -> books_inv g -> books_inv (frame g i).
Proof.
  intros Hg (Hmu & Hrc & Hmn & Hgo).
  pose proof (after_input_inv g i Hg) as (_ & _ & Hsm).
  pose proof (after_input_music g i Hmu) as Amu.
  destruct (after_input_rel g i) as (Am & _ & Arc & Ao & _ & _ & _ & Hst & _).
  destruct (at_collision_test_fields g i) as (Ts & Tm & _ & Tmu & Trc & To & _).
  destruct (frame_cases g i) as [(Hs' & E) | [(Hp & Hc & E) | [(Hp & _ & _ & E) |
                                 (Hp & _ & Hy & E)]]].
  - rewrite (frame_outside_playing g i Hs').
    unfold books_inv, set_isRunning. simpl. tauto.
  - pose proof (not_over_before_playing g i Hp) as Hng.
    rewrite E, (collision_check_catch _ Hc). unfold books_inv. proj_simpl.
    rewrite Ts, Tm, Tmu, Trc, To, Am, Arc, Ao, Amu, Hp.
    rewrite filter_app, length_app, existsb_app. unfold missed_numbers in *.
    rewrite flat_map_app, Hmn, Hgo, Hng. books_simpl. rewrite app_nil_r.
    repeat split; try reflexivity. lia.
  - rewrite E. unfold books_inv.
    rewrite Ts, Tm, Tmu, Trc, To, Am, Arc, Ao, Amu.
    pose proof (not_over_before_playing g i Hp) as Hng.
    rewrite Hp. simpl. rewrite Hgo, Hng. tauto.
  - pose proof (not_over_before_playing g i Hp) as Hng.
    unfold state_mistakes_ok in Hsm. rewrite Hp in Hsm. rewrite Am in Hsm.
    rewrite E, (miss_check_fires _ Hy). unfold books_inv. proj_simpl.
    rewrite Ts, Tm, Tmu, Trc, To, Am, Arc, Ao, Amu, Hp.
    unfold_consts. norm_int.
    assert (Z.to_nat (mistakes g + 1) = S (Z.to_nat (mistakes g))) as Hn by lia.
    unfold missed_numbers in *.
    destruct (Z.geb_spec (mistakes g + 1) 5);
      rewrite ?filter_app, ?length_app, ?existsb_app, ?flat_map_app, Hmn, Hgo, Hng, Hn,
              seq_S, map_app; books_simpl; rewrite ?app_nil_r, ?Nat.add_0_r;
      repeat split; try reflexivity; try lia;
      f_equal; f_equal; lia.
Qed.

Lemma reachable_books (g : Game) : reachable g -> books_inv g.
Proof.
  induction 1 as [ | g i Hg IH _]; [apply init_books | ].
  apply frame_books; [apply reachable_inv, Hg | exact IH].
Qed.

(** X11. In every reachable state the music is on exactly in the PLAYING
    state: it is started by the click that leaves the menu, halted by the
    fifth mistake, and nothing else touches it. *)
Theorem music_plays_iff_playing (g : Game) :
  reachable g -> (musicPlaying g = true <-> currentState g = PLAYING).
Proof.
  intros Hg. destruct (reachable_books g Hg) as (Hmu & _).
  rewrite Hmu. apply GameState_eqb_PLAYING.
Qed.

(** X12. In every reachable state the output lists the misses in order,
    numbered 1, 2, ... up to the current mistake count with no number skipped
    or repeated, and contains the game-over line exactly when the state is
    GAME_OVER. *)
Theorem output_counts_misses (g : Game) :
  reachable g ->
  missed_numbers (stdout g) = map Z.of_nat (seq 1 (Z.to_nat (mistakes g))) /\
  (In GameOverLine (stdout g) <-> currentState g = GAME_OVER).
Proof.
  intros Hg. destruct (reachable_books g Hg) as (_ & _ & Hmn & Hgo).
  split; [exact Hmn | ].
  assert (existsb Line_is_game_over (stdout g) = true <-> In GameOverLine (stdout g))
    as Hin.
  { rewrite existsb_exists. split.
    - intros (l & Hl & Hx). destruct l; try discriminate. exact Hl.
    - intros Hl. exists GameOverLine. split; [exact Hl | reflexivity]. }
  rewrite <- Hin, Hgo. destruct (currentState g); simpl; split; congruence.
Qed.

(** X13. In every reachable state the number of [rand()] calls made so far
    is one (for the first block) plus the number of catches printed plus the
    number of mistakes: every respawn draws exactly one random number, and
    nothing else does. *)
Theorem rand_called_once_per_block (g : Game) :
  reachable g ->
  Z.of_nat (randCalls g) =
  1 + Z.of_nat (length (filter Line_is_caught (stdout g))) + mistakes g.
Proof.
  intros Hg. destruct (reachable_books g Hg) as (_ & Hrc & _). exact Hrc.
Qed.

(** ** Moving the paddle *)

Lemma add_sub_cancel (x k : Z) :
  Int.in_range x -> Int.add (Int.sub x k) k = x.
Proof.
  unfold Int.in_range, Int.INT_MIN, Int.INT_MAX, Int.add, Int.sub, Int.wrap.
  intros Hx.
  replace ((x - k + 2 ^ 31) mod 2 ^ 32 - 2 ^ 31 + k + 2 ^ 31)
    with ((x - k + 2 ^ 31) mod 2 ^ 32 + k) by lia.
  rewrite Z.add_mod_idemp_l by lia.
  replace (x - k + 2 ^ 31 + k) with (x + 2 ^ 31) by lia.
  rewrite Z.mod_small; lia.
Qed.

Lemma handle_event_player_range (g : Game) (ev : SDL_Event * SDL_Point) :
  Int.in_range (rx (player g)) -> Int.in_range (rx (player (handle_event g ev))).
Proof.
  intros H. destruct ev as [e mouse]. unfold handle_event.
  destruct e as [ | sym | | mx | ]; try exact H.
  - destruct (sym =? SDLK_ESCAPE); exact H.
  - destruct (currentState g); try exact H.
    destruct (SDL_PointInRect _ _); exact H.
  - destruct (currentState g); try exact H. apply wrap_in_range.
Qed.

Lemma poll_events_player_range (evs : list (SDL_Event * SDL_Point)) (g : Game) :
  Int.in_range (rx (player g)) -> Int.in_range (rx (player (poll_events g evs))).
Proof.
  unfold poll_events. revert g.
  induction evs as [ | ev evs IH]; intros g H; simpl; [exact H | ].
  apply IH, handle_event_player_range, H.
Qed.

Lemma keyboard_input_idle (g : Game) : keyboard_input g false false = g.
Proof. unfold keyboard_input. destruct (currentState g); reflexivity. Qed.

Lemma reachable_paddle_range (g : Game) :
  reachable g -> Int.in_range (rx (player g)).
Proof.
  intros Hg. destruct (reachable_inv g Hg) as [_ Hx].
  unfold_consts. int_range.
Qed.

(** X14. With both arrow keys held the paddle goes where it would go with
    neither: the step left and the step right cancel, also when the pointer
    has just put the paddle at the edge of the [int] range.  The whole frame
    is the same. *)
Theorem both_arrows_cancel (g : Game) (evs : list (SDL_Event * SDL_Point)) :
  reachable g ->
  frame g (mkInput evs true true) = frame g (mkInput evs false false).
Proof.
  intros Hg. unfold frame, after_input. cbn [events keyLeft keyRight].
  f_equal. rewrite keyboard_input_idle.
  pose proof (poll_events_player_range evs g (reachable_paddle_range g Hg)) as Hr.
  revert Hr. generalize (poll_events g evs). intros a Hr.
  unfold keyboard_input. destruct (currentState a); try reflexivity.
  destruct a as [st m [x y w h] b run mu rc out]. unfold set_player. simpl in *.
  unfold PADDLE_SPEED. rewrite (add_sub_cancel x 10 Hr). reflexivity.
Qed.

Lemma frame_player_x (g : Game) (i : FrameInput) :
  currentState (after_input g i) = PLAYING ->
  rx (player (frame g i)) = rx (player (clamp_paddle (after_input g i))).
Proof.
  intros Hp. unfold frame, game_logic. rewrite Hp.
  rewrite miss_check_player, collision_check_player. reflexivity.
Qed.

Lemma clamp_paddle_value (g : Game) :
  rw (player g) = PADDLE_WIDTH ->
  rx (player (clamp_paddle g)) =
  Z.max 0 (Z.min (SCREEN_WIDTH - PADDLE_WIDTH) (rx (player g))).
Proof.
  intros Hw. unfold clamp_paddle.
  destruct (Z.ltb_spec (rx (player g)) 0); simpl; rewrite Hw;
    unfold_consts; norm_int; simpl.
  - lia.
  - destruct (Z.gtb_spec (rx (player g)) 700); simpl; lia.
Qed.

(** X15. The paddle follows the pointer: when the last event of a frame is a
    pointer motion to x = mx, handled in the PLAYING state, and no arrow key
    is held, the frame leaves the paddle centred under the pointer and
    clamped to the screen, at max 0 (min 700 (mx - 50)); for a pointer between
    50 and 750 that is exactly mx - 50. *)
Theorem paddle_follows_pointer (g : Game) (evs : list (SDL_Event * SDL_Point))
        (mx : Z) (mouse : SDL_Point) :
  reachable g ->
  currentState (poll_events g evs) = PLAYING ->
  Int.INT_MIN + 50 <= mx <= Int.INT_MAX ->
  let i := mkInput (evs ++ [(MouseMotionEvent mx, mouse)]) false false in
  rx (player (frame g i)) = follow_pointer mx /\
  (50 <= mx <= 750 -> rx (player (frame g i)) = mx - 50).
Proof.
  intros Hg Hp Hmx i.
  destruct (reachable_inv g Hg) as [((Fw & _) & _) _].
  destruct (poll_events_rel evs g) as (_ & _ & _ & _ & Hw & _).
  assert (after_input g i =
          set_player (poll_events g evs)
            (set_rx (player (poll_events g evs)) (mx - 50))) as Ha.
  { unfold after_input, i. cbn [events keyLeft keyRight].
    rewrite keyboard_input_idle. unfold poll_events at 1.
    rewrite fold_left_app. fold (poll_events g evs). cbn [fold_left handle_event].
    rewrite Hp, Hw, Fw. unfold PADDLE_WIDTH.
    change (Int.div 100 2) with 50.
    unfold Int.INT_MIN, Int.INT_MAX in Hmx. norm_int. reflexivity. }
  assert (rx (player (frame g i)) = follow_pointer mx) as Hx.
  { rewrite frame_player_x by (rewrite Ha; exact Hp).
    rewrite clamp_paddle_value by (rewrite Ha; simpl; congruence).
    rewrite Ha. reflexivity. }
  split; [exact Hx | ].
  intros Hmid. rewrite Hx. unfold follow_pointer. unfold_consts.
  change (100 / 2) with 50. lia.
Qed.

Lemma poll_events_no_motion (evs : list (SDL_Event * SDL_Point)) (g : Game) :
  existsb is_motion evs = false -> player (poll_events g evs) = player g.
Proof.
  unfold poll_events. revert g.
  induction evs as [ | ev evs IH]; intros g Hn; cbn [fold_left existsb] in *;
    [reflexivity | ].
  apply orb_false_elim in Hn. destruct Hn as [Hn1 Hn2].
  rewrite (IH _ Hn2). destruct ev as [e mouse]. unfold handle_event, is_motion in *.
  cbn [fst] in Hn1.
  destruct e; try reflexivity; try discriminate Hn1.
  - destruct (_ =? _); reflexivity.
  - destruct (currentState g); try reflexivity.
    destruct (SDL_PointInRect _ _); reflexivity.
Qed.

(** X16. The arrow keys move the paddle by PADDLE_SPEED = 10 and stop at the
    screen edges: in a PLAYING frame without pointer motion, the paddle goes
    from x to max 0 (x - 10) with the left arrow alone, to min 700 (x + 10)
    with the right arrow alone, and stays at x with neither or both. *)
Theorem arrow_keys_move_paddle (g : Game) (evs : list (SDL_Event * SDL_Point))
        (left right : bool) :
  reachable g -> currentState g = PLAYING -> existsb is_motion evs = false ->
  rx (player (frame g (mkInput evs left right))) =
  match left, right with
  | true, false => Z.max 0 (rx (player g) - PADDLE_SPEED)
  | false, true => Z.min (SCREEN_WIDTH - PADDLE_WIDTH) (rx (player g) + PADDLE_SPEED)
  | _, _ => rx (player g)
  end.
Proof.
  intros Hg Hp Hn.
  destruct (reachable_inv g Hg) as [((Fw & _) & _) Hx].
  destruct (poll_events_rel evs g) as (_ & _ & _ & _ & _ & _ & _ & Hst & _).
  assert (currentState (poll_events g evs) = PLAYING) as Hp'
      by (destruct Hst as [E | [E _]]; congruence).
  pose proof (poll_events_no_motion evs g Hn) as Hpl.
  set (i := mkInput evs left right).
  assert (currentState (after_input g i) = PLAYING /\
          rw (player (after_input g i)) = PADDLE_WIDTH /\
          rx (player (after_input g i)) =
          match left, right with
          | true, false => rx (player g) - 10
          | false, true => rx (player g) + 10
          | _, _ => rx (player g)
          end) as (Ap & Aw & Ax).
  { unfold after_input, i, keyboard_input. cbn [events keyLeft keyRight].
    rewrite Hp'. unfold_consts.
    destruct left, right; simpl; rewrite ?Hp', ?Hpl; repeat split;
      try assumption; norm_int; try reflexivity; lia. }
  rewrite (frame_player_x g i Ap), (clamp_paddle_value _ Aw), Ax.
  unfold_consts. destruct left, right; lia.
Qed.

(** ** How long a game lasts *)

Lemma frames_spent_frame (g : Game) (i : FrameInput) :
  loop_inv g -> frames_spent (frame g i) <= frames_spent g + 1.
Proof.
  intros Hg. pose proof (after_input_inv g i Hg) as Ha.
  destruct (after_input_rel g i) as (Am & Ab & _).
  destruct (at_collision_test_fields g i) as (_ & Tm & _ & _ & _ & _ & _ & _ & _ & _ & Tb).
  destruct Ha as (_ & (_ & By & Bm) & Hsm).
  rewrite Ab in *. pose proof (Z.div_mod (ry (block g)) 5) as Hd.
  assert (ry (block (at_collision_test g i)) = ry (block g) + 5) as Hty.
  { rewrite Tb. simpl. unfold_consts. norm_int. reflexivity. }
  unfold frames_spent.
  destruct (frame_cases g i) as [(Hs' & E) | [(Hp & Hc & E) | [(Hp & _ & _ & E) |
                                 (Hp & _ & Hy & E)]]].
  - rewrite (frame_outside_playing g i Hs'). unfold set_isRunning. simpl. lia.
  - rewrite E, (collision_check_catch _ Hc). proj_simpl. rewrite Tm, Am.
    unfold_consts. change (0 / 5) with 0.
    pose proof (Z.div_pos (ry (block g)) 5). lia.
  - rewrite E, Tm, Am, Hty. unfold_consts.
    replace (ry (block g) + 5) with (ry (block g) + 1 * 5) by lia.
    rewrite Z.div_add by lia. lia.
  - unfold state_mistakes_ok in Hsm. rewrite Hp, Am in Hsm.
    rewrite E, (miss_check_fires _ Hy). proj_simpl. rewrite Tm, Am.
    unfold_consts. norm_int. change (0 / 5) with 0.
    assert (ry (block g) = 600) as -> by lia.
    change (600 / 5) with 120. lia.
Qed.

Lemma frames_spent_run (inputs : list FrameInput) (g : Game) :
  loop_inv g ->
  frames_spent (run g inputs) <= frames_spent g + Z.of_nat (length inputs).
Proof.
  revert g. induction inputs as [ | i rest IH]; intros g Hg; cbn [run length].
  - lia.
  - destruct (isRunning g); [ | lia].
    pose proof (frames_spent_frame g i Hg).
    pose proof (IH (frame g i) (frame_inv g i Hg)). lia.
Qed.

(** X17. Mistakes cannot come faster than one per 121 frames: after n frames
    from the start, 121 times the mistake count, plus the steps the current
    block has fallen, is at most n.  So a game that has reached GAME_OVER has
    run for at least 605 frames. *)
Theorem game_lasts_605_frames (inputs : list FrameInput) :
  121 * mistakes (run init inputs) + ry (block (run init inputs)) / BLOCK_SPEED
    <= Z.of_nat (length inputs) /\
  (currentState (run init inputs) = GAME_OVER -> (605 <= length inputs)%nat).
Proof.
  pose proof (frames_spent_run inputs init init_inv) as H.
  unfold frames_spent in H. rewrite init_eq in H at 3 4. proj_simpl.
  change (0 / BLOCK_SPEED) with 0 in H.
  split; [lia | ].
  intros Hover.
  pose proof (reachable_inv _ (reachable_run inputs init reach_init))
    as ((_ & (_ & Hy & _) & Hsm) & _).
  unfold state_mistakes_ok in Hsm. rewrite Hover in Hsm.
  pose proof (Z.div_pos (ry (block (run init inputs))) BLOCK_SPEED).
  unfold_consts. lia.
Qed.

(** ** What is drawn, and where the block is caught *)

(** X18. In every reachable PLAYING state the rendering fills exactly two
    rectangles, the paddle and the block.  The paddle lies entirely on the
    800 x 600 screen; the block lies within the screen's width, with its top
    edge between 0 and 600, so it may hang below the bottom of the screen. *)
Theorem render_stays_on_screen (g : Game) :
  reachable g -> currentState g = PLAYING ->
  (forall r, In (SDL_RenderFillRect r) (render g) <->
             r = player g \/ r = block g) /\
  on_screen (player g) /\
  0 <= rx (block g) /\ rx (block g) + rw (block g) <= SCREEN_WIDTH /\
  0 <= ry (block g) <= SCREEN_HEIGHT.
Proof.
  intros Hg Hp.
  destruct (reachable_inv g Hg)
    as (((Fw & Fh & Fy & Bw & Bh) & (Bx & By & _) & _) & Hx).
  split.
  - intros r. unfold render. rewrite Hp. simpl. split.
    + intros H. repeat (destruct H as [H | H]; try discriminate H);
        try contradiction; inversion H; auto.
    + intros [-> | ->]; auto 10.
  - unfold on_screen. rewrite Fw, Fh, Fy, Bw. unfold_consts. lia.
Qed.

(** X19. Where a block is caught: in a frame of a run whose game logic
    runs, the catch happens exactly when the block, before it moves down, has
    its y strictly between 535 and 585 and its x strictly between the
    clamped paddle's x - 30 and x + 100. *)
Theorem catch_zone (g : Game) (i : FrameInput) :
  reachable g -> currentState (after_input g i) = PLAYING ->
  (catch_occurs g i = true <->
   rx (player (clamp_paddle (after_input g i))) - BLOCK_SIZE < rx (block g)
     < rx (player (clamp_paddle (after_input g i))) + PADDLE_WIDTH /\
   535 < ry (block g) < 585).
Proof.
  intros Hg Hp.
  destruct (at_collision_test_shape g i Hg)
    as (Pw & Ph & Py & Px & Bw & Bh & Bx & Bxr & By & Byr & _).
  destruct (at_collision_test_fields g i) as (_ & _ & _ & _ & _ & _ & Tx & _).
  assert (collision_operands (player (at_collision_test g i))
                             (block (at_collision_test g i))) as Hop
      by (exists g, i; auto).
  destruct (collision_operands_ok _ _ Hop) as [H1 H2].
  rewrite catch_occurs_true, (SDL_HasIntersection_overlap _ _ H1 H2).
  unfold overlap_spec. rewrite Pw, Ph, Py, Bw, Bh, Bx, By, Tx.
  unfold_consts. intuition lia.
Qed.

(** ** The running flag and the rest of the frame *)

Lemma handle_event_set_isRunning (g : Game) (b : bool)
      (ev : SDL_Event * SDL_Point) :
  handle_event (set_isRunning g b) ev =
  set_isRunning (handle_event g ev) (b && negb (is_quit ev)).
Proof.
  destruct ev as [e mouse]. unfold handle_event, is_quit. cbn [fst].
  destruct e as [ | sym | | mx | ]; cbn [negb];
    rewrite ?andb_true_r, ?andb_false_r; try reflexivity.
  - destruct (sym =? SDLK_ESCAPE); cbn [negb];
      rewrite ?andb_true_r, ?andb_false_r; reflexivity.
  - simpl. destruct (currentState g); try reflexivity.
    destruct (SDL_PointInRect _ _); reflexivity.
  - simpl. destruct (currentState g); reflexivity.
Qed.

Lemma handle_quit_event (g : Game) (ev : SDL_Event * SDL_Point) :
  is_quit ev = true -> handle_event g ev = set_isRunning g false.
Proof.
  destruct ev as [e mouse]. unfold handle_event, is_quit. cbn [fst].
  destruct e; try discriminate; [reflexivity | ].
  intros ->. reflexivity.
Qed.

Lemma set_isRunning_twice (g : Game) (b c : bool) :
  set_isRunning (set_isRunning g b) c = set_isRunning g c.
Proof. reflexivity. Qed.

Lemma poll_events_without_quits (evs : list (SDL_Event * SDL_Point)) (g : Game) :
  poll_events g evs =
  set_isRunning (poll_events g (filter (fun ev => negb (is_quit ev)) evs))
                (isRunning g && negb (existsb is_quit evs)).
Proof.
  assert (forall evs g b,
            poll_events (set_isRunning g b) evs =
            set_isRunning (poll_events g evs) (b && negb (existsb is_quit evs)))
    as Hset.
  { unfold poll_events. intros l. induction l as [ | ev l IH]; intros g' b;
      cbn [fold_left existsb].
    - rewrite andb_true_r. reflexivity.
    - rewrite handle_event_set_isRunning, IH, negb_orb, andb_assoc. reflexivity. }
  revert g. induction evs as [ | ev evs IH]; intros g; cbn [filter existsb].
  - unfold poll_events. simpl. rewrite andb_true_r. destruct g; reflexivity.
  - destruct (is_quit ev) eqn:Hq; cbn [negb orb].
    + change (poll_events g (ev :: evs)) with (poll_events (handle_event g ev) evs).
      rewrite (handle_quit_event g ev Hq), Hset, IH, set_isRunning_twice.
      rewrite andb_false_r. reflexivity.
    + change (poll_events g (ev :: evs)) with (poll_events (handle_event g ev) evs).
      change (poll_events g (ev :: filter (fun ev0 => negb (is_quit ev0)) evs))
        with (poll_events (handle_event g ev)
                          (filter (fun ev0 => negb (is_quit ev0)) evs)).
      rewrite IH, handle_event_isRunning, Hq, andb_true_r. reflexivity.
Qed.

Lemma keyboard_input_set_isRunning (g : Game) (b l r : bool) :
  keyboard_input (set_isRunning g b) l r = set_isRunning (keyboard_input g l r) b.
Proof.
  unfold keyboard_input. simpl. destruct (currentState g), l, r; reflexivity.
Qed.

Lemma game_logic_set_isRunning (g : Game) (b : bool) :
  game_logic (set_isRunning g b) = set_isRunning (game_logic g) b.
Proof.
  unfold game_logic. cbn [set_isRunning currentState].
  destruct (currentState g) eqn:Hs; try reflexivity.
  assert (clamp_paddle (set_isRunning g b) = set_isRunning (clamp_paddle g) b) as ->.
  { unfold clamp_paddle. simpl.
    destruct (rx (player g) <? 0); simpl;
      match goal with |- context [?x >? ?y] => destruct (x >? y) end; reflexivity. }
  generalize (clamp_paddle g). intros c.
  change (move_block (set_isRunning c b)) with (set_isRunning (move_block c) b).
  generalize (move_block c). intros m.
  assert (collision_check (set_isRunning m b) = set_isRunning (collision_check m) b)
    as ->.
  { unfold collision_check. simpl.
    destruct (SDL_HasIntersection (player m) (block m)); reflexivity. }
  generalize (collision_check m). intros k.
  unfold miss_check. simpl.
  destruct (ry (block k) >? SCREEN_HEIGHT); [ | reflexivity].
  destruct (_ >=? _); reflexivity.
Qed.

(** X20. The running flag and the game do not influence each other within a
    frame: a frame that handles a window-close or Escape event still handles
    its other events, samples the keyboard and runs the game logic, exactly
    as the same frame without those events would; only the running flag of
    the result differs. *)
Theorem quit_does_not_cut_the_frame (g : Game) (i : FrameInput) :
  frame g i =
  set_isRunning (frame g (without_quits i)) (isRunning g && negb (frame_quits i)).
Proof.
  unfold frame, after_input, without_quits, frame_quits.
  cbn [events keyLeft keyRight].
  rewrite (poll_events_without_quits (events i) g).
  rewrite keyboard_input_set_isRunning, game_logic_set_isRunning. reflexivity.
Qed.

(** X21. Before the play button is clicked nothing has happened: every
    reachable state in MENU is the initial state, up to the running flag.  The
    block waits at y = 0, no random number beyond the first has been drawn
    and nothing has been printed. *)
Theorem menu_is_initial_state (g : Game) :
  reachable g -> currentState g = MENU -> g = set_isRunning init (isRunning g).
Proof.
  induction 1 as [ | g i Hg IH Hr]; intros Hm.
  - rewrite init_eq. reflexivity.
  - assert (currentState (after_input g i) <> PLAYING) as Hn.
    { intros Hp. exact (frame_not_menu g i Hp Hm). }
    rewrite (frame_outside_playing g i Hn) in *. cbn [set_isRunning currentState] in Hm.
    rewrite (IH Hm) at 1. reflexivity.
Qed.

End GameLoop.

(** ** The theorems on sample runs *)

Lemma sample_rand_nonneg (n : nat) : 0 <= sample_rand n.
Proof. unfold sample_rand. lia. Qed.

(** The first frame of a game started by a click: the paddle at x = 350 and
    the block at (380, 5) are handed to the collision test. *)
Lemma collision_test_is_symmetric_overlap_witness :
  collision_operands sample_rand (mkRect 350 570 100 20) (mkRect 380 5 30 30) /\
  ((SDL_HasIntersection (mkRect 350 570 100 20) (mkRect 380 5 30 30) = true <->
    350 < 380 + 30 /\ 380 < 350 + 100 /\ 570 < 5 + 30 /\ 5 < 570 + 20) /\
   SDL_HasIntersection (mkRect 350 570 100 20) (mkRect 380 5 30 30) =
   SDL_HasIntersection (mkRect 380 5 30 30) (mkRect 350 570 100 20)).
Proof.
  assert (collision_operands sample_rand (mkRect 350 570 100 20) (mkRect 380 5 30 30))
    as H.
  { exists (init sample_rand), click_play.
    split; [apply reach_init | ].
    split; [reflexivity | split; reflexivity]. }
  split; [exact H | ].
  exact (collision_test_is_symmetric_overlap sample_rand sample_rand_nonneg _ _ H).
Defined.

(** Four blocks missed and the fifth at y = 600: the next frame counts the
    fifth mistake and ends the game. *)
Lemma mistakes_bounded_monotone_game_over_witness :
  let g := run sample_rand (init sample_rand)
               (click_play_go_left :: repeat idle 603) in
  reachable sample_rand g /\ mistakes g = 4 /\
  mistakes (frame sample_rand g idle) = 5 /\
  currentState (frame sample_rand g idle) = GAME_OVER /\
  musicPlaying (frame sample_rand g idle) = false.
Proof.
  intros g.
  assert (reachable sample_rand g) as Hg
      by (apply reachable_run, reach_init).
  split; [exact Hg | ]. split; [vm_compute; reflexivity | ].
  destruct (mistakes_bounded_monotone_game_over sample_rand sample_rand_nonneg
              g idle Hg) as (_ & _ & _ & _ & H & _).
  apply H; vm_compute; reflexivity.
Defined.

(** Pointer far right and the right arrow held: the paddle is clamped to 700. *)
Lemma paddle_clamped_to_screen_witness :
  reachable sample_rand (init sample_rand) /\
  currentState (after_input (init sample_rand) click_play_go_right) = PLAYING /\
  0 <= rx (player (frame sample_rand (init sample_rand) click_play_go_right)) <= 700.
Proof.
  assert (currentState (after_input (init sample_rand) click_play_go_right) = PLAYING)
    as Hp by reflexivity.
  split; [apply reach_init | ]. split; [exact Hp | ].
  destruct (paddle_clamped_to_screen sample_rand sample_rand_nonneg
              (init sample_rand) click_play_go_right
              (reach_init sample_rand) Hp) as (_ & Hb & E).
  rewrite E. exact Hb.
Defined.

(** The block one step above the paddle: the frame catches it. *)
Lemma catch_resets_block_witness :
  let g := mkGame PLAYING 0 (mkRect 350 570 100 20) (mkRect 380 560 30 30)
                  true true 1 [] in
  catch_occurs g idle = true /\
  ry (block (frame sample_rand g idle)) = 0 /\
  0 <= rx (block (frame sample_rand g idle)) < SCREEN_WIDTH - BLOCK_SIZE /\
  mistakes (frame sample_rand g idle) = 0.
Proof.
  intros g.
  assert (catch_occurs g idle = true) as Hc by reflexivity.
  split; [exact Hc | ].
  destruct (catch_resets_block sample_rand sample_rand_nonneg g idle Hc)
    as ((Hy & _ & Hx & _ & Hm) & _).
  split; [exact Hy | ]. split; [exact Hx | exact Hm].
Defined.

(** C5 as stated fails: in the run below the block's bottom edge
    y2 + h2 = 570 meets the paddle's top edge y1 = 570 with the horizontal
    ranges overlapping, and the collision test answers false; the frame
    catches nothing. *)
Lemma touching_edges_counterexample :
  let g := run sample_rand (init sample_rand) (click_play :: repeat idle 106) in
  let t := at_collision_test g idle in
  player t = mkRect 350 570 100 20 /\ block t = mkRect 380 540 30 30 /\
  ry (block t) + rh (block t) = ry (player t) /\
  rx (player t) < rx (block t) + rw (block t) /\
  rx (block t) < rx (player t) + rw (player t) /\
  SDL_HasIntersection (player t) (block t) = false /\
  stdout (frame sample_rand g idle) = [].
Proof. vm_compute. repeat split; reflexivity. Qed.

Lemma touching_edges_do_not_intersect_witness :
  rect_ok (mkRect 350 570 100 20) /\ rect_ok (mkRect 380 540 30 30) /\
  SDL_HasIntersection (mkRect 350 570 100 20) (mkRect 380 540 30 30) = false.
Proof.
  assert (rect_ok (mkRect 350 570 100 20)) as H1.
  { unfold rect_ok, Int.in_range, Int.INT_MIN, Int.INT_MAX. simpl. lia. }
  assert (rect_ok (mkRect 380 540 30 30)) as H2.
  { unfold rect_ok, Int.in_range, Int.INT_MIN, Int.INT_MAX. simpl. lia. }
  split; [exact H1 | ]. split; [exact H2 | ].
  apply (touching_edges_do_not_intersect _ _ H1 H2).
  left. reflexivity.
Defined.

(** The click of the spec's scenario, on the initial state. *)
Lemma menu_click_starts_game_witness :
  currentState (init sample_rand) = MENU /\
  currentState (handle_event (init sample_rand)
                             (MouseButtonDownEvent, mkPoint 400 300)) = PLAYING /\
  handle_event (init sample_rand) (MouseButtonDownEvent, mkPoint 500 500) =
  init sample_rand.
Proof.
  assert (currentState (init sample_rand) = MENU) as Hm by reflexivity.
  split; [exact Hm | ].
  destruct (menu_click_starts_game (init sample_rand) (mkPoint 400 300) Hm)
    as (_ & _ & _ & _ & _ & Hout & Hin).
  split; [rewrite Hin; reflexivity | exact Hout].
Defined.

(** The second frame of a game: the block goes from y = 5 to y = 10. *)
Lemma block_falls_by_block_speed_witness :
  let g := run sample_rand (init sample_rand) [click_play] in
  reachable sample_rand g /\
  ry (block (frame sample_rand g idle)) = ry (block g) + BLOCK_SPEED.
Proof.
  intros g.
  assert (reachable sample_rand g) as Hg by (apply reachable_run, reach_init).
  split; [exact Hg | ].
  destruct (block_falls_by_block_speed sample_rand sample_rand_nonneg g idle)
    as (H & _).
  apply H; [exact Hg | reflexivity | reflexivity | reflexivity].
Defined.

(** Closing the window in the menu: the loop makes no further pass over the
    frames that would follow. *)
Lemma quit_or_escape_ends_loop_witness :
  In (QuitEvent, mkPoint 0 0) (events close_window) /\
  isRunning (frame sample_rand (init sample_rand) close_window) = false /\
  iterations sample_rand (frame sample_rand (init sample_rand) close_window)
             [click_play; idle] = 0%nat.
Proof.
  assert (In (QuitEvent, mkPoint 0 0) (events close_window)) as Hin
      by (left; reflexivity).
  split; [exact Hin | ].
  destruct (quit_or_escape_ends_loop sample_rand (init sample_rand) close_window
              (mkPoint 0 0) [click_play; idle] (or_introl Hin))
    as (_ & _ & Hs & _ & Hi).
  split; [exact Hs | exact Hi].
Defined.

(** A frame with a catch has no miss. *)
Lemma catch_excludes_miss_witness :
  let g := mkGame PLAYING 0 (mkRect 350 570 100 20) (mkRect 380 560 30 30)
                  true true 1 [] in
  catch_occurs g idle = true /\
  stdout (frame sample_rand g idle) = [CaughtIt] /\
  mistakes (frame sample_rand g idle) = 0.
Proof.
  intros g.
  assert (catch_occurs g idle = true) as Hc by reflexivity.
  split; [exact Hc | ].
  destruct (catch_excludes_miss sample_rand g idle) as (_ & H & _).
  destruct (H Hc) as (_ & _ & Hm & Ho).
  split; [exact Ho | exact Hm].
Defined.

(** The block at y = 600 with the paddle away: the miss check sees y = 605. *)
Lemma block_position_invariant_witness :
  let g := run sample_rand (init sample_rand)
               (click_play_go_left :: repeat idle 603) in
  reachable sample_rand g /\ miss_occurs sample_rand g idle = true /\
  ry (block (collision_check sample_rand (at_collision_test g idle))) = 605.
Proof.
  intros g.
  assert (reachable sample_rand g) as Hg by (apply reachable_run, reach_init).
  assert (miss_occurs sample_rand g idle = true) as Hm by (vm_compute; reflexivity).
  split; [exact Hg | ]. split; [exact Hm | ].
  destruct (block_position_invariant sample_rand sample_rand_nonneg g idle Hg)
    as (_ & _ & _ & _ & _ & _ & H).
  apply (H Hm).
Defined.

(** ** Startup, shutdown and the further loop properties on sample runs *)



(** The same game: [main] returns 0. *)
Lemma main_returns_iff_quit_witness :
  startup_succeeds sample_env = true /\
  fst (main sample_rand sample_env [click_play; close_window; idle]) = Some 0.
Proof.
  assert (startup_succeeds sample_env = true) as Hs by reflexivity.
  split; [exact Hs | ].
  destruct (main_returns_iff_quit sample_rand sample_env
              [click_play; close_window; idle] Hs) as (H & _).
  apply H. reflexivity.
Defined.

(** After the fifth mistake a click on the play button changes nothing. *)
Lemma frozen_outside_playing_witness :
  let g := run sample_rand (init sample_rand)
               (click_play_go_left :: repeat idle 604) in
  currentState g = GAME_OVER /\ frame sample_rand g click_play = g.
Proof.
  intros g.
  assert (currentState g = GAME_OVER) as Hover by (vm_compute; reflexivity).
  split; [exact Hover | ].
  destruct (frozen_outside_playing sample_rand g click_play []) as (H & _).
  destruct (H Hover) as (Hf & _).
  rewrite Hf. vm_compute. reflexivity.
Defined.

(** The music is on after the click on the play button. *)
Lemma music_plays_iff_playing_witness :
  let g := run sample_rand (init sample_rand) [click_play] in
  reachable sample_rand g /\ musicPlaying g = true.
Proof.
  intros g.
  assert (reachable sample_rand g) as Hg by (apply reachable_run, reach_init).
  split; [exact Hg | ].
  apply (music_plays_iff_playing sample_rand sample_rand_nonneg g Hg).
  reflexivity.
Defined.

(** A lost game has printed the misses 1 to 5. *)
Lemma output_counts_misses_witness :
  let g := run sample_rand (init sample_rand)
               (click_play_go_left :: repeat idle 604) in
  reachable sample_rand g /\ mistakes g = 5 /\
  missed_numbers (stdout g) = [1; 2; 3; 4; 5] /\
  In GameOverLine (stdout g).
Proof.
  intros g.
  assert (reachable sample_rand g) as Hg by (apply reachable_run, reach_init).
  assert (mistakes g = 5) as Hm by (vm_compute; reflexivity).
  split; [exact Hg | ]. split; [exact Hm | ].
  destruct (output_counts_misses sample_rand sample_rand_nonneg g Hg) as (Hn & Ho).
  split.
  - rewrite Hn, Hm. reflexivity.
  - apply Ho. vm_compute. reflexivity.
Defined.

(** A game with the paddle under the block: three catches, four calls. *)
Lemma rand_called_once_per_block_witness :
  let g := run sample_rand (init sample_rand) (click_play :: repeat idle 330) in
  reachable sample_rand g /\ mistakes g = 0 /\
  length (filter Line_is_caught (stdout g)) = 3%nat /\
  Z.of_nat (randCalls g) = 4.
Proof.
  intros g.
  assert (reachable sample_rand g) as Hg by (apply reachable_run, reach_init).
  assert (mistakes g = 0) as Hm by (vm_compute; reflexivity).
  assert (length (filter Line_is_caught (stdout g)) = 3%nat) as Hc
      by (vm_compute; reflexivity).
  split; [exact Hg | ]. split; [exact Hm | ]. split; [exact Hc | ].
  rewrite (rand_called_once_per_block sample_rand sample_rand_nonneg g Hg), Hc, Hm.
  reflexivity.
Defined.

Lemma both_arrows_cancel_witness :
  reachable sample_rand (init sample_rand) /\
  frame sample_rand (init sample_rand)
        (mkInput [(MouseButtonDownEvent, mkPoint 400 300)] true true) =
  frame sample_rand (init sample_rand) click_play.
Proof.
  split; [apply reach_init | ].
  apply (both_arrows_cancel sample_rand sample_rand_nonneg (init sample_rand)
           [(MouseButtonDownEvent, mkPoint 400 300)] (reach_init sample_rand)).
Defined.

(** Click, then the pointer to x = 200: the paddle ends at 150. *)
Lemma paddle_follows_pointer_witness :
  reachable sample_rand (init sample_rand) /\
  rx (player (frame sample_rand (init sample_rand)
                    (mkInput ([(MouseButtonDownEvent, mkPoint 400 300)] ++
                              [(MouseMotionEvent 200, mkPoint 200 300)])
                             false false))) = 150.
Proof.
  split; [apply reach_init | ].
  destruct (paddle_follows_pointer sample_rand sample_rand_nonneg
              (init sample_rand) [(MouseButtonDownEvent, mkPoint 400 300)]
              200 (mkPoint 200 300) (reach_init sample_rand)) as (_ & H).
  - reflexivity.
  - unfold Int.INT_MIN, Int.INT_MAX. lia.
  - apply H. lia.
Defined.

(** The left arrow in the second frame: the paddle goes from 350 to 340. *)
Lemma arrow_keys_move_paddle_witness :
  let g := run sample_rand (init sample_rand) [click_play] in
  reachable sample_rand g /\ currentState g = PLAYING /\
  rx (player (frame sample_rand g (mkInput [] true false))) = 340.
Proof.
  intros g.
  assert (reachable sample_rand g) as Hg by (apply reachable_run, reach_init).
  assert (currentState g = PLAYING) as Hp by reflexivity.
  split; [exact Hg | ]. split; [exact Hp | ].
  rewrite (arrow_keys_move_paddle sample_rand sample_rand_nonneg g [] true false
             Hg Hp eq_refl).
  reflexivity.
Defined.

(** The shortest lost game takes 605 frames. *)
Lemma game_lasts_605_frames_witness :
  currentState (run sample_rand (init sample_rand)
                    (click_play_go_left :: repeat idle 604)) = GAME_OVER /\
  (605 <= length (click_play_go_left :: repeat idle 604))%nat.
Proof.
  assert (currentState (run sample_rand (init sample_rand)
                            (click_play_go_left :: repeat idle 604)) = GAME_OVER)
    as Hover by (vm_compute; reflexivity).
  split; [exact Hover | ].
  destruct (game_lasts_605_frames sample_rand sample_rand_nonneg
              (click_play_go_left :: repeat idle 604)) as (_ & H).
  exact (H Hover).
Defined.

Lemma render_stays_on_screen_witness :
  let g := run sample_rand (init sample_rand) [click_play] in
  reachable sample_rand g /\ currentState g = PLAYING /\ on_screen (player g).
Proof.
  intros g.
  assert (reachable sample_rand g) as Hg by (apply reachable_run, reach_init).
  assert (currentState g = PLAYING) as Hp by reflexivity.
  split; [exact Hg | ]. split; [exact Hp | ].
  destruct (render_stays_on_screen sample_rand sample_rand_nonneg g Hg Hp)
    as (_ & H & _).
  exact H.
Defined.

(** The block at y = 540 above the paddle is caught in the next frame. *)
Lemma catch_zone_witness :
  let g := run sample_rand (init sample_rand) (click_play :: repeat idle 107) in
  reachable sample_rand g /\ ry (block g) = 540 /\ catch_occurs g idle = true.
Proof.
  intros g.
  assert (reachable sample_rand g) as Hg by (apply reachable_run, reach_init).
  split; [exact Hg | ]. split; [vm_compute; reflexivity | ].
  apply (catch_zone sample_rand sample_rand_nonneg g idle Hg); [reflexivity | ].
  vm_compute. repeat split; reflexivity.
Defined.

(** Two idle frames in the menu leave the initial state. *)
Lemma menu_is_initial_state_witness :
  let g := run sample_rand (init sample_rand) [idle; idle] in
  reachable sample_rand g /\ currentState g = MENU /\
  g = set_isRunning (init sample_rand) true.
Proof.
  intros g.
  assert (reachable sample_rand g) as Hg by (apply reachable_run, reach_init).
  assert (currentState g = MENU) as Hm by reflexivity.
  split; [exact Hg | ]. split; [exact Hm | ].
  exact (menu_is_initial_state sample_rand g Hg Hm).
Defined.
